(** * SeeSharp: the xUnit report pipeline

    A shallow embedding of the Go packages [camelcase], [gosentence] and
    [xunit] of kdeconinck/SeeSharp, of the printer of its [main] package
    and of its [assert] package, together with the parts of the Go
    standard library they call ([unicode], [unicode/utf8], [strings]).

    Conventions.
    - A Go [string] is a byte sequence: Rocq's [string], one [ascii] per byte.
    - A Go [int] is a [Z].  Every integer below is an index into a string or
      a slice, bounded by its length, so 64-bit wrap-around never occurs.
    - A run-time panic (index or slice bounds out of range) is the result
      [None]; loops are driven by a fuel that the length of the input
      bounds, and running out of it is [None] as well.  The totality
      lemmas show that neither happens.
    - A Go slice is a [slice]: [nil_slice] or [mk_slice] of its elements,
      since the report model distinguishes an absent from an empty
      sequence. *)

From Stdlib Require Import ZArith Ascii String List Lia.
From stdpp Require Import base option list strings gmap sorting pretty.

Local Open Scope string_scope.
Local Open Scope list_scope.
Local Open Scope Z_scope.
Local Set Warnings "-register-all".

(** ** Slices *)

Inductive slice (A : Type) : Type :=
| nil_slice
| mk_slice (xs : list A).
Arguments nil_slice {A}.
Arguments mk_slice {A} xs.

(** The elements of a slice ([range] over it). *)
Definition elems {A} (s : slice A) : list A :=
  match s with nil_slice => [] | mk_slice xs => xs end.

(** [append(s, x)]: the result is never nil. *)
Definition append {A} (s : slice A) (x : A) : slice A :=
  mk_slice (elems s ++ [x]).

(** [make([]A, 0, n)]. *)
Definition make {A} : slice A := mk_slice [].

(** [l[i]] and [l[lo:hi]] on the elements of a slice. *)
Definition index {A} (l : list A) (i : Z) : option A :=
  if 0 <=? i then l !! Z.to_nat i else None.

Definition subslice {A} (l : list A) (lo hi : Z) : option (list A) :=
  if (0 <=? lo) && (lo <=? hi) && (hi <=? Z.of_nat (length l))
  then Some (take (Z.to_nat (hi - lo)) (drop (Z.to_nat lo) l))
  else None.

(** A loop over the elements of [l] that threads a state and may panic. *)
Fixpoint forEach {A S} (body : S → A → option S) (l : list A) (s : S)
  : option S :=
  match l with
  | [] => Some s
  | x :: l' => s' ← body s x; forEach body l' s'
  end.

(** ** Package [unicode], restricted to [rune(b)] for a byte [b]

    The code only ever classifies [rune(v[pos])], a code point below 256,
    for which Go consults its Latin-1 property table. *)
Module unicode.

Definition code (c : ascii) : N := N_of_ascii c.

Definition between (lo hi : N) (c : ascii) : bool :=
  ((lo <=? code c) && (code c <=? hi))%N.

Definition IsDigit (c : ascii) : bool := between 48 57 c.

(** Digits, superscripts two, three and one, and the vulgar fractions. *)
Definition IsNumber (c : ascii) : bool :=
  between 48 57 c || between 178 179 c || between 185 185 c
  || between 188 190 c.

Definition IsUpper (c : ascii) : bool :=
  between 65 90 c || between 192 214 c || between 216 222 c.

Definition IsLower (c : ascii) : bool :=
  between 97 122 c || between 181 181 c || between 223 246 c
  || between 248 255 c.

Definition IsSpace (c : ascii) : bool :=
  between 9 13 c || between 32 32 c || between 133 133 c
  || between 160 160 c.

End unicode.

(** ** Package [unicode/utf8] *)
Module utf8.

Import unicode.

(** What the first byte of an encoded rune asks of the bytes after it:
    the accepted range of each. *)
Definition first (c : ascii) : option (list (N * N)) :=
  if between 0 127 c then Some []
  else if between 194 223 c then Some [(128, 191)%N]
  else if between 224 224 c then Some [(160, 191); (128, 191)]%N
  else if between 225 236 c then Some [(128, 191); (128, 191)]%N
  else if between 237 237 c then Some [(128, 159); (128, 191)]%N
  else if between 238 239 c then Some [(128, 191); (128, 191)]%N
  else if between 240 240 c then Some [(144, 191); (128, 191); (128, 191)]%N
  else if between 241 243 c then Some [(128, 191); (128, 191); (128, 191)]%N
  else if between 244 244 c then Some [(128, 143); (128, 191); (128, 191)]%N
  else None.

Fixpoint valid (pending : list (N * N)) (s : string) : bool :=
  match s with
  | EmptyString => match pending with [] => true | _ => false end
  | String c s' =>
      match pending with
      | (lo, hi) :: pending' => between lo hi c && valid pending' s'
      | [] => match first c with
              | Some pending' => valid pending' s'
              | None => false
              end
      end
  end.

Definition ValidString (s : string) : bool := valid [] s.

End utf8.

(** ** Package [strings] and the string primitives of the language *)

(** What Go's Unicode case mapping does to a string that holds a byte
    outside ASCII ([strings.Map(unicode.ToLower, s)]).  The development is
    parametric in it. *)
Class CaseMapping := { MapToLower : string → string }.

Module strings.

Import unicode.

Definition len (v : string) : Z := Z.of_nat (String.length v).

(** [v[i]]. *)
Definition byteAt (v : string) (i : Z) : option ascii :=
  if 0 <=? i then String.get (Z.to_nat i) v else None.

(** [v[lo:hi]]. *)
Definition substr (v : string) (lo hi : Z) : option string :=
  if (0 <=? lo) && (lo <=? hi) && (hi <=? len v)
  then Some (String.substring (Z.to_nat lo) (Z.to_nat (hi - lo)) v)
  else None.

(** [strings.Contains(s, sub)]. *)
Definition Contains (s sub : string) : bool :=
  match String.index 0 sub s with Some _ => true | None => false end.

(** [strings.ContainsRune(s, r)] for a rune [r] below 128, stored as
    the one byte [r]. *)
Fixpoint ContainsRune (s : string) (r : ascii) : bool :=
  match s with
  | EmptyString => false
  | String c s' => Ascii.eqb c r || ContainsRune s' r
  end.

(** [strings.LastIndex(s, sep)]: the index of the last instance of [sep]
    in [s], or -1. *)
Fixpoint LastIndex (s sep : string) : Z :=
  match s with
  | EmptyString => match sep with EmptyString => 0 | _ => -1 end
  | String _ s' =>
      let r := LastIndex s' sep in
      if 0 <=? r then r + 1
      else if String.prefix sep s then 0 else -1
  end.

(** [strings.Split(s, sep)] for a separator of one byte. *)
Fixpoint Split (s : string) (sep : ascii) : list string :=
  match s with
  | EmptyString => [EmptyString]
  | String c s' =>
      match Split s' sep with
      | w :: ws => if Ascii.eqb c sep then EmptyString :: w :: ws
                   else String c w :: ws
      | [] => []
      end
  end.

(** [strings.Join(elems, sep)]. *)
Definition Join (elems : list string) (sep : string) : string :=
  String.concat sep elems.

Definition isASCII (c : ascii) : bool := between 0 127 c.

Definition lowerByte (c : ascii) : ascii :=
  if between 65 90 c then ascii_of_N (code c + 32) else c.

Fixpoint forallBytes (p : ascii → bool) (s : string) : bool :=
  match s with
  | EmptyString => true
  | String c s' => p c && forallBytes p s'
  end.

Fixpoint mapBytes (f : ascii → ascii) (s : string) : string :=
  match s with
  | EmptyString => EmptyString
  | String c s' => String (f c) (mapBytes f s')
  end.

(** [strings.ToLower(s)]: byte by byte on an ASCII string, the Unicode
    mapping otherwise. *)
Definition ToLower `{CaseMapping} (s : string) : string :=
  if forallBytes isASCII s then mapBytes lowerByte s else MapToLower s.

End strings.

(** ** Package [camelcase] *)
Module camelcase.

Import unicode strings.

(** The loop [for ; idx < len(v) && p(rune(v[idx])); idx++ {}]: the value
    of [idx] when it ends. *)
Fixpoint scanWhile (p : ascii → bool) (v : string) (fuel : nat) (idx : Z)
  : option Z :=
  match fuel with
  | O => None
  | S fuel' =>
      if idx <? len v then
        c ← byteAt v idx;
        if p c then scanWhile p v fuel' (idx + 1) else Some idx
      else Some idx
  end.

Definition fuelFor (v : string) : nat := S (String.length v).

Definition getNumberEndPos (v : string) (idx : Z) : option Z :=
  idx ← scanWhile IsNumber v (fuelFor v) (idx + 1);
  Some (idx - 1).

Definition getSpaceEndPos (v : string) (idx : Z) : option Z :=
  idx ← scanWhile IsSpace v (fuelFor v) (idx + 1);
  Some (idx - 1).

Definition getWordEndPos (v : string) (idx : Z) : option Z :=
  nextIsUpper ← (if idx + 1 <? len v
                 then c ← byteAt v (idx + 1); Some (IsUpper c)
                 else Some false);
  if nextIsUpper : bool then
    idx ← scanWhile IsUpper v (fuelFor v) (idx + 1);
    if idx <? len v then
      c ← byteAt v idx;
      if IsDigit c then Some (idx - 1) else Some (idx - 2)
    else Some (idx - 1)
  else
    idx ← scanWhile IsLower v (fuelFor v) (idx + 1);
    Some (idx - 1).

Definition isValid (v : string) : bool :=
  utf8.ValidString v && (0 <? len v).

(** The loop of [extractWordsByIndexes], from [i] on. *)
Fixpoint extractLoop (fuel : nat) (v : string) (endIndexes : list Z)
    (i : Z) (words : list string) : option (list string) :=
  match fuel with
  | O => None
  | S fuel' =>
      if i <? Z.of_nat (length endIndexes) then
        endIndex ← index endIndexes i;
        if (0 <=? endIndex) && (endIndex <=? len v) then
          startIndex ← (if i =? 0 then Some 0 else index endIndexes (i - 1));
          word ← substr v startIndex endIndex;
          extractLoop fuel' v endIndexes (i + 1) (words ++ [word])
        else extractLoop fuel' v endIndexes (i + 1) words
      else Some words
  end.

Definition extractWordsByIndexes (v : string) (endIndexes : list Z)
  : option (list string) :=
  extractLoop (S (length endIndexes)) v endIndexes 0 [].

(** The loop of [Split], from [pos] on; [pos = endPos] in a branch and
    the loop's [pos += 1] make the next position [endPos + 1]. *)
Fixpoint splitLoop (fuel : nat) (v : string) (pos : Z)
    (wordIndexes : list Z) : option (list Z) :=
  match fuel with
  | O => None
  | S fuel' =>
      if pos <? len v then
        c ← byteAt v pos;
        if IsNumber c then
          endPos ← getNumberEndPos v pos;
          splitLoop fuel' v (endPos + 1) (wordIndexes ++ [endPos + 1])
        else if IsUpper c || IsLower c then
          endPos ← getWordEndPos v pos;
          splitLoop fuel' v (endPos + 1) (wordIndexes ++ [endPos + 1])
        else if IsSpace c then
          endPos ← getSpaceEndPos v pos;
          splitLoop fuel' v (endPos + 1) (wordIndexes ++ [endPos + 1])
        else splitLoop fuel' v (pos + 1) wordIndexes
      else Some wordIndexes
  end.

Definition Split (v : string) : option (list string) :=
  if negb (isValid v) then Some [v]
  else
    wordIndexes ← splitLoop (fuelFor v) v 0 [];
    extractWordsByIndexes v wordIndexes.

End camelcase.

(** ** Package [gosentence] *)
Module gosentence.

Import strings.

(** [slices.Contains(s, v)]. *)
Definition slicesContains (s : list string) (v : string) : bool :=
  existsb (String.eqb v) s.

Section Transform.
Context `{CaseMapping}.

(** The loop [for idx, word := range v], from index [idx] on. *)
Fixpoint transformLoop (noTransform : list string) (idx : Z)
    (v : list string) (retVal : list string) : list string :=
  match v with
  | [] => retVal
  | word :: v' =>
      transformLoop noTransform (idx + 1) v'
        (if idx =? 0 then retVal ++ [word]
         else if slicesContains noTransform word then retVal ++ [word]
         else retVal ++ [ToLower word])
  end.

Definition Transform (v : list string) (noTransform : list string)
  : string :=
  Join (transformLoop noTransform 0 v []) " ".
End Transform.

End gosentence.

(** ** Package [paths] *)
Module paths.

Definition isSeparator (c : ascii) : bool :=
  Ascii.eqb c "/" || Ascii.eqb c "\".

(** Modelled from the spec: [paths.Name], whose source is not part of the
    sources at hand (only its test is).  "Taking the text after the last
    path separator (supporting both forward-slash and backslash
    separators ...) — a path with no separator returns itself
    unchanged." *)
Fixpoint Name (fullPath : string) : string :=
  match fullPath with
  | EmptyString => EmptyString
  | String c rest =>
      if strings.forallBytes (λ b, negb (isSeparator b)) rest
      then (if isSeparator c then rest else fullPath)
      else Name rest
  end.

End paths.

(** ** Package [maps] *)
Module maps.

(** Modelled from the spec: [maps.SortedKeys], whose source is not part of
    the sources at hand (only its test is).  "Buckets are realized as
    groups ordered by the lexicographic sort of their rendered key": the
    keys of the map in ascending order, strings being compared byte by
    byte as Go's [<] does. *)
Definition SortedKeys {V} (m : gmap string V) : list string :=
  merge_sort String.le (map fst (map_to_list m)).

End maps.

(** ** Package [xunit] *)
Module xunit.

Import strings.

(** A [float32] is carried from the document to the report and never
    computed with: it is represented by its IEEE-754 bit pattern. *)
Definition float32 : Type := N.

(** *** The intermediate tree

    Modelled from the spec: the declarations of the schema-mirroring
    structs [result], [assembly], [collection], [test], [traitSet] and
    [trait] are not part of the sources at hand; their fields are the
    ones the functions below read.  A field that the code only ranges
    over or measures is a [list]. *)
Record trait := {
  trait_Name : string;
  trait_Value : string }.

Record traitSet := { Traits : list trait }.

Record test := {
  test_Name : string;
  test_Type : string;
  test_Result : string;
  test_Time : float32;
  TraitSet : traitSet }.

Record collection := { Tests : list test }.

Record assembly := {
  FullName : string;
  assembly_ErrorCount : Z;
  assembly_PassedCount : Z;
  assembly_FailedCount : Z;
  assembly_NotRunCount : Z;
  Total : Z;
  assembly_RunDate : string;
  assembly_RunTime : string;
  assembly_TimeRTF : string;
  assembly_Time : float32;
  Collections : list collection }.

Record result := {
  result_Computer : string;
  result_User : string;
  StartRTF : string;
  FinishRTF : string;
  result_Timestamp : string;
  result_Assemblies : list assembly }.

(** *** The report model *)
Record TestCase := {
  TestCase_Name : string;
  TestCase_Result : string;
  TestCase_Time : float32;
  TestCase_groups : slice string }.

(** [Groups] is a [[]*TestGroup].  Every pointer in it is allocated by
    [groupTests] and stored in exactly one slice, so the groups form a
    tree and an update through a pointer is an update of the subtree. *)
Inductive TestGroup : Type := Build_TestGroup {
  TestGroup_Name : string;
  TestGroup_Tests : slice TestCase;
  TestGroup_Groups : slice TestGroup }.

Record Assembly := {
  Assembly_Name : string;
  ErrorCount : Z;
  PassedCount : Z;
  FailedCount : Z;
  NotRunCount : Z;
  TotalCount : Z;
  RunDate : string;
  RunTime : string;
  Time : float32;
  TimeRTF : string;
  TestGroups : slice TestGroup }.

Record TestRun := {
  Computer : string;
  User : string;
  StartTimeRTF : string;
  EndTimeRTF : string;
  Timestamp : string;
  Assemblies : slice Assembly }.

(** [TestRun{}]. *)
Definition TestRun_zero : TestRun :=
  {| Computer := ""; User := ""; StartTimeRTF := ""; EndTimeRTF := "";
     Timestamp := ""; Assemblies := nil_slice |}.

Definition result_zero : result :=
  {| result_Computer := ""; result_User := ""; StartRTF := "";
     FinishRTF := ""; result_Timestamp := ""; result_Assemblies := [] |}.

Inductive error := DecodeError.

(** *** Tests and traits *)

Definition hasDisplayName (t : test) : bool :=
  negb (Contains (test_Name t) (test_Type t)).

Definition isNested (t : test) : bool :=
  negb (hasDisplayName t) && Contains (test_Name t) "+".

Definition trait_friendlyName (t : trait) : string :=
  trait_Name t +:+ " - " +:+ trait_Value t.

Section Names.
Context `{CaseMapping}.

(** [gosentence.Transform(camelcase.Split(p))]. *)
Definition humanize (p : string) : option string :=
  ccSplit ← camelcase.Split p;
  Some (gosentence.Transform ccSplit []).

Definition friendlyName (t : test) : option string :=
  if hasDisplayName t then Some (test_Name t)
  else
    let name := test_Name t in
    fnName ← substr name (LastIndex name "." + 1) (len name);
    fnName ← (if ContainsRune fnName "("
              then substr fnName 0 (LastIndex fnName "(")
              else Some fnName);
    humanize fnName.

Definition groups (t : test) : option (slice string) :=
  if negb (isNested t) then Some make
  else
    let groupName := strings.Split (test_Name t) "+" in
    let n := Z.of_nat (length groupName) in
    first ← index groupName 0;
    firstPart ← substr first (LastIndex first "." + 1) (len first);
    interior ← subslice groupName 1 (n - 1);
    last ← index groupName (n - 1);
    lastPart ← index (strings.Split last ".") 0;
    let groupNameParts := [firstPart] ++ interior ++ [lastPart] in
    groupName ← mapM humanize groupNameParts;
    Some (mk_slice groupName).

(** *** Grouping *)

Definition hasTests (a : assembly) : bool :=
  existsb (λ c, 0 <? Z.of_nat (length (Tests c))) (Collections a).

(** [testMap[key]]: the zero value for an absent key. *)
Definition bucket (testMap : gmap string (list TestCase)) (key : string)
  : list TestCase :=
  default [] (testMap !! key).

(** [testMap[key] = append(testMap[key], tCase)]. *)
Definition addCase (testMap : gmap string (list TestCase)) (key : string)
    (tCase : TestCase) : gmap string (list TestCase) :=
  <[key := bucket testMap key ++ [tCase]]> testMap.

(** The body of the loop over the tests of a collection. *)
Definition indexTest (testMap : gmap string (list TestCase)) (t : test)
  : option (gmap string (list TestCase)) :=
  name ← friendlyName t;
  gs ← groups t;
  let tCase := {| TestCase_Name := name; TestCase_groups := gs;
                  TestCase_Result := test_Result t;
                  TestCase_Time := test_Time t |} in
  let testMap :=
    if Z.of_nat (length (Traits (TraitSet t))) =? 0
    then addCase testMap "" tCase else testMap in
  Some (foldl (λ m tTrait, addCase m (trait_friendlyName tTrait) tCase)
              testMap (Traits (TraitSet t))).

(** [uniqueTraits] leaves the index in [assembly.testMap]; here it is
    returned next to the sorted keys. *)
Definition uniqueTraits (a : assembly)
  : option (list string * gmap string (list TestCase)) :=
  testMap ← forEach (λ m c, forEach indexTest (Tests c) m)
                    (Collections a) ∅;
  Some (maps.SortedKeys testMap, testMap).

(** [TestCase{Name: tc.Name, Result: tc.Result, Time: tc.Time}]. *)
Definition reportCase (tc : TestCase) : TestCase :=
  {| TestCase_Name := TestCase_Name tc; TestCase_Result := TestCase_Result tc;
     TestCase_Time := TestCase_Time tc; TestCase_groups := nil_slice |}.

Definition addTest (g : TestGroup) (tc : TestCase) : TestGroup :=
  Build_TestGroup (TestGroup_Name g)
    (append (TestGroup_Tests g) (reportCase tc)) (TestGroup_Groups g).

Definition setGroups (g : TestGroup) (gs : slice TestGroup) : TestGroup :=
  Build_TestGroup (TestGroup_Name g) (TestGroup_Tests g) gs.

(** The loop [for idx, nn := range tc.groups] with the cursor at
    [cGroup]: the subtree of [cGroup] when the loop ends. *)
Fixpoint walk (tc : TestCase) (names : list string) (cGroup : TestGroup)
  : TestGroup :=
  match names with
  | [] => cGroup
  | nn :: rest =>
      let visit (sGroup : TestGroup) : TestGroup :=
        walk tc rest
          (match rest with [] => addTest sGroup tc | _ => sGroup end) in
      let children := elems (TestGroup_Groups cGroup) in
      match list_find (λ g, TestGroup_Name g = nn) children with
      | Some (i, _) => setGroups cGroup (mk_slice (alter visit i children))
      | None =>
          setGroups cGroup
            (append (TestGroup_Groups cGroup)
               (visit (Build_TestGroup nn nil_slice nil_slice)))
      end
  end.

(** The body of the loop over the test cases of a trait. *)
Definition placeCase (cGroup : TestGroup) (tc : TestCase) : TestGroup :=
  if Z.of_nat (length (elems (TestCase_groups tc))) =? 0
  then addTest cGroup tc
  else walk tc (elems (TestCase_groups tc)) cGroup.

Definition groupTests (a : assembly) : option (slice TestGroup) :=
  if negb (hasTests a) then Some make
  else
    '(uniqueTraits, testMap) ← uniqueTraits a;
    Some (foldl (λ resultSet trait,
                   append resultSet
                     (foldl placeCase
                        (Build_TestGroup trait make nil_slice)
                        (bucket testMap trait)))
                make uniqueTraits).

Definition readResult (r : result) : option TestRun :=
  assemblies ←
    forEach (λ acc a,
               testGroups ← groupTests a;
               Some (append acc
                 {| Assembly_Name := paths.Name (FullName a);
                    ErrorCount := assembly_ErrorCount a;
                    PassedCount := assembly_PassedCount a;
                    FailedCount := assembly_FailedCount a;
                    NotRunCount := assembly_NotRunCount a;
                    TotalCount := Total a;
                    RunDate := assembly_RunDate a;
                    RunTime := assembly_RunTime a;
                    TimeRTF := assembly_TimeRTF a;
                    Time := assembly_Time a;
                    TestGroups := testGroups |}))
            (result_Assemblies r) make;
  Some {| Computer := result_Computer r; User := result_User r;
          StartTimeRTF := StartRTF r; EndTimeRTF := FinishRTF r;
          Timestamp := result_Timestamp r; Assemblies := assemblies |}.
End Names.

(** *** Decoding *)

(** What the XML reader of the standard library makes of a byte stream:
    whether it is a well-formed document, whether the document carries
    the expected marker, and the tree it decodes to. *)
Class XmlReader := {
  wellFormed : string → bool;
  hasMarker : string → bool;
  decoded : string → result }.

Section Load.
Context `{CaseMapping} `{XmlReader}.

(** Modelled from the spec: [unmarshal], whose source is not part of
    the sources at hand.  "Fails with a DecodeError if the stream is
    empty, is not well-formed XML, or does not contain an expected
    document marker." *)
Definition unmarshal (rdr : string) : result * option error :=
  if String.eqb rdr "" then (result_zero, Some DecodeError)
  else if negb (wellFormed rdr) then (result_zero, Some DecodeError)
  else if negb (hasMarker rdr) then (result_zero, Some DecodeError)
  else (decoded rdr, None).

Definition Load (rdr : string) : option (TestRun * option error) :=
  let '(result, err) := unmarshal rdr in
  match err with
  | Some e => Some (TestRun_zero, Some e)
  | None => run ← readResult result; Some (run, None)
  end.
End Load.

End xunit.

(** ** Package [main] *)
Module main.

Import strings xunit.

(** Go's [<=] on two [float32], on their bit patterns: false when one of
    them is a NaN, the two zeros equal, and otherwise the order of the
    magnitudes, reversed below zero. *)
Definition magnitude (x : float32) : N := N.land x 0x7FFFFFFF.

Definition negative (x : float32) : bool := N.testbit x 31.

Definition isNaN (x : float32) : bool := (0x7F800000 <? magnitude x)%N.

Definition float32_le (a b : float32) : bool :=
  if isNaN a || isNaN b then false
  else
    match negative a, negative b with
    | false, false => (magnitude a <=? magnitude b)%N
    | true, true => (magnitude b <=? magnitude a)%N
    | true, false => true
    | false, true => (magnitude a =? 0)%N && (magnitude b =? 0)%N
    end.

(** The constants [0.05] and [0.1], converted to [float32]. *)
Definition fast : float32 := 0x3D4CCCCD%N.
Definition medium : float32 := 0x3DCCCCCD%N.

(** [strings.Repeat(s, count)]: it panics on a negative count. *)
Definition Repeat (s : string) (count : Z) : option string :=
  if count <? 0 then None
  else Some (String.concat "" (replicate (Z.to_nat count) s)).

(** What is written to the standard output: the calls of [fmt.Printf]
    and [fmt.Println], with their arguments. *)
Inductive arg :=
| argString (s : string)
| argFloat (f : float32).

Inductive output :=
| Printf (format : string) (args : list arg)
| Println (line : string).

Definition crlf : string := String "013" (String "010" "").

(** The line of a test. *)
Definition printTest (indentLevel : Z) (test : TestCase) : option output :=
  if float32_le (TestCase_Time test) fast then
    indent ← Repeat " " indentLevel;
    Some (Printf ("%s 🚀 %s %s (%v seconds)" +:+ crlf)
            [argString indent; argString ""; argString (TestCase_Name test);
             argFloat (TestCase_Time test)])
  else if float32_le (TestCase_Time test) medium then
    indent ← Repeat " " indentLevel;
    Some (Printf ("%s 🕐 %s %s (%v seconds)" +:+ crlf)
            [argString indent; argString ""; argString (TestCase_Name test);
             argFloat (TestCase_Time test)])
  else
    indent ← Repeat " " indentLevel;
    Some (Printf ("%s 🐌 %s %s (%v seconds)" +:+ crlf)
            [argString indent; argString ""; argString (TestCase_Name test);
             argFloat (TestCase_Time test)]).

(** [printGroup]: the output, or [None] when it panics. *)
Fixpoint printGroup (group : TestGroup) (indentLevel : Z)
  : option (list output) :=
  match group with
  | Build_TestGroup name tests groups =>
      header ←
        (if negb (String.eqb name "") then
           indent ← Repeat " " (indentLevel + 1);
           Some [Printf ("%sGroup: %s" +:+ crlf)
                   [argString indent; argString name]]
         else Some []);
      lines ← mapM (printTest indentLevel) (elems tests);
      let blank :=
        if 0 <? Z.of_nat (length (elems tests)) then [Println ""] else [] in
      below ←
        match groups with
        | nil_slice => Some []
        | mk_slice gs =>
            (fix each (gs : list TestGroup) : option (list output) :=
               match gs with
               | [] => Some []
               | g :: gs' =>
                   out ← printGroup g (indentLevel + 1);
                   rest ← each gs';
                   Some (out ++ rest)
               end) gs
        end;
      Some (header ++ lines ++ blank ++ below)
  end.

End main.

(** ** Package [assert] *)
Module assert.

(** The values of type [any], as far as the package uses them: the
    conversion of a string and of an [int], the comparison with [nil],
    the type assertion [x.(string)], and [fmt.Sprintf]. *)
Class Values := {
  any : Type;
  ofString : string → any;
  ofInt : Z → any;
  isNil : any → bool;
  asString : any → option string;
  Sprintf : string → list any → string }.

(** A type that instantiates [V comparable]: its conversion to [any] and
    its [==]. *)
Class Comparable `{Values} (V : Type) := {
  toAny : V → any;
  equal : V → V → bool }.

(** How a call ends: it returns, it ends the goroutine (as
    [testing.T.Fatalf] does), or it panics. *)
Inductive outcome (T : Type) : Type :=
| Returned (tb : T)
| Exited (tb : T)
| Panicked.
Arguments Returned {T} tb.
Arguments Exited {T} tb.
Arguments Panicked {T}.

(** The methods of [testing.TB] that the package calls, on a state of
    type [T]; [Helper] has no effect on it. *)
Class TB `{Values} (T : Type) := {
  Fatalf : string → list any → T → outcome T;
  Failed : T → bool }.

(** The rest of a function body after a call. *)
Definition andThen {T} (o : outcome T) (rest : T → outcome T) : outcome T :=
  match o with
  | Returned tb => rest tb
  | Exited tb => Exited tb
  | Panicked => Panicked
  end.

Section Assert.
Context `{Values} {T : Type} `{!TB T}.

Definition failT (tb : T) (got want : any) (name msgTemplate : string)
    (msg : list any) : outcome T :=
  if negb (String.eqb name "") then
    Fatalf msgTemplate [ofString name; got; want] tb
  else
    match msg with
    | [] => Panicked
    | first :: rest =>
        match asString first with
        | Some format => Fatalf format rest tb
        | None => Panicked
        end
    end.

Definition NotNil (tb : T) (got : any) (name : string) (msg : list any)
  : outcome T :=
  if isNil got then
    failT tb got (ofString "NOT <nil>") name "%s = %v, want %s" msg
  else Returned tb.

Definition Equal {V} `{!Comparable V} (tb : T) (got want : V)
    (name : string) (msg : list any) : outcome T :=
  if negb (equal got want) then
    failT tb (toAny got) (toAny want) name "%s = %v, want %v" msg
  else Returned tb.

(** The loop [for idx, el := range got] of [EqualS], from index [idx]
    on. *)
Fixpoint equalLoop {E} `{!Comparable E} (idx : Z) (got want : list E)
    (name : string) (msg : list any) (tb : T) : outcome T :=
  match got with
  | [] => Returned tb
  | el :: got' =>
      if Failed tb then Returned tb
      else
        match index want idx with
        | None => Panicked
        | Some w =>
            andThen
              (if negb (equal el w) then
                 failT tb (toAny el) (toAny w) name
                   (Sprintf "%%s - Idx #%d = %%v, want %%v" [ofInt idx]) msg
               else Returned tb)
              (equalLoop (idx + 1) got' want name msg)
        end
  end.

Definition EqualS {E} `{!Comparable E} (tb : T) (got want : list E)
    (name : string) (msg : list any) : outcome T :=
  andThen
    (if negb (Z.of_nat (length got) =? Z.of_nat (length want)) then
       failT tb (ofInt (Z.of_nat (length got)))
         (ofInt (Z.of_nat (length want))) name
         "%s - Unequal slice length = %v, want %v" msg
     else Returned tb)
    (λ tb, if Failed tb then Returned tb
           else equalLoop 0 got want name msg tb).
End Assert.

(** The test double of the package's tests: [Fatalf] records the failure
    and returns. *)
Record testableT := {
  isFailed : bool;
  failureMsg : string }.

#[export] Instance testableT_TB `{Values} : TB testableT := {|
  Fatalf format args t :=
    Returned {| isFailed := true; failureMsg := Sprintf format args |};
  Failed := isFailed |}.

End assert.

(** * Specifications

    The functions the code is compared with, on the bytes of a string. *)

Definition bytes (v : string) : list ascii := list_ascii_of_string v.
Definition str (l : list ascii) : string := string_of_list_ascii l.

Module rules.

Import unicode.

(** The bytes the splitter reacts to. *)
Definition classified (c : ascii) : bool :=
  IsNumber c || (IsUpper c || IsLower c) || IsSpace c.

(** The length of the longest prefix of [l] whose bytes satisfy [p]. *)
Fixpoint run (p : ascii → bool) (l : list ascii) : nat :=
  match l with
  | c :: l' => if p c then S (run p l') else O
  | [] => O
  end.

(** The length of the token that starts at a letter followed by [rest]:
    when the next byte is an uppercase letter the token takes the
    uppercase run after the letter, all of it when the run reaches the
    end of the input or a decimal digit follows, all but its last byte
    otherwise; when it is not, the token takes the lowercase run. *)
Definition wordLen (rest : list ascii) : nat :=
  match rest with
  | next :: _ =>
      if IsUpper next then
        let k := run IsUpper rest in
        match drop k rest with
        | [] => S k
        | after :: _ => if IsDigit after then S k else k
        end
      else S (run IsLower rest)
  | [] => 1%nat
  end.

Definition tokenLen (c : ascii) (rest : list ascii) : nat :=
  if IsNumber c then S (run IsNumber rest)
  else if IsUpper c || IsLower c then wordLen rest
  else S (run IsSpace rest).

(** The tokens of [rest]; [pending] holds the unclassified bytes read
    since the last token, which the next token takes along. *)
Fixpoint tokensFrom (fuel : nat) (pending rest : list ascii)
  : list string :=
  match fuel, rest with
  | S fuel', c :: rest' =>
      if classified c then
        let n := tokenLen c rest' in
        str (pending ++ take n rest) :: tokensFrom fuel' [] (drop n rest)
      else tokensFrom fuel' (pending ++ [c]) rest'
  | _, _ => []
  end.

Definition tokens (v : string) : list string :=
  tokensFrom (String.length v) [] (bytes v).

(** The last byte of [v] is one the splitter reacts to. *)
Definition endsClassified (v : string) : bool :=
  match last (bytes v) with Some c => classified c | None => false end.

(** The letter rule as the specification words it: two or more
    uppercase letters at the scan position are an acronym, which stops
    one byte early when a lowercase letter follows; anything else is the
    letter with the lowercase letters after it. *)
Definition wordLenSpec (c : ascii) (rest : list ascii) : nat :=
  let k := run IsUpper (c :: rest) in
  if (2 <=? k)%nat then
    match drop k (c :: rest) with
    | after :: _ => if IsLower after then (k - 1)%nat else k
    | [] => k
    end
  else S (run IsLower rest).

Definition tokenLenSpec (c : ascii) (rest : list ascii) : nat :=
  if IsDigit c then S (run IsDigit rest)
  else if IsUpper c || IsLower c then wordLenSpec c rest
  else S (run IsSpace rest).

Fixpoint tokensSpecFrom (fuel : nat) (pending rest : list ascii)
  : list string :=
  match fuel, rest with
  | S fuel', c :: rest' =>
      if IsDigit c || (IsUpper c || IsLower c) || IsSpace c then
        let n := tokenLenSpec c rest' in
        str (pending ++ take n rest) :: tokensSpecFrom fuel' [] (drop n rest)
      else tokensSpecFrom fuel' (pending ++ [c]) rest'
  | _, _ => []
  end.

Definition tokensSpec (v : string) : list string :=
  tokensSpecFrom (String.length v) [] (bytes v).

End rules.

(** The words that end indexes [ends] cut out of the bytes [l], the first
    one starting at [s]; and what makes the indexes a subdivision: they
    increase strictly from [s] and stay within [n]. *)
Fixpoint cut (l : list ascii) (s : Z) (ends : list Z) : list string :=
  match ends with
  | [] => []
  | e :: ends' =>
      str (take (Z.to_nat (e - s)) (drop (Z.to_nat s) l)) :: cut l e ends'
  end.

Fixpoint chain (s : Z) (ends : list Z) (n : Z) : Prop :=
  match ends with
  | [] => True
  | e :: ends' => s < e ≤ n ∧ chain e ends' n
  end.

(** A word ends with a byte the splitter reacts to. *)
Definition endsOk (l : list ascii) : Prop :=
  ∃ c, last l = Some c ∧ rules.classified c = true.

(** What the splitter returns on any string: the tokens of the rules on a
    valid one, the string itself otherwise. *)
Definition words (v : string) : list string :=
  if camelcase.isValid v then rules.tokens v else [v].

(** The string of the repository's test that is not valid UTF-8:
    ["BadUTF8\xe2\xe2\xa1"]. *)
Definition badUTF8 : string :=
  "BadUTF8" +:+
  String (ascii_of_N 226) (String (ascii_of_N 226) (String (ascii_of_N 161) "")).

(** A case mapping to run the examples with; they are ASCII, so it is
    never consulted. *)
Definition asciiCase : CaseMapping := {| MapToLower := λ s, s |}.

(** The phrase of a word sequence, as the specification words it. *)
Definition phrase `{CaseMapping} (v noTransform : list string) : string :=
  String.concat " "
    match v with
    | [] => []
    | first :: others =>
        first :: map (λ word, if decide (word ∈ noTransform) then word
                              else strings.ToLower word) others
    end.

(** The portions of a string around a byte: after its last occurrence,
    before its first one and before its last one; the whole string when
    the byte does not occur. *)
Fixpoint afterLast (c : ascii) (s : string) : string :=
  match s with
  | EmptyString => EmptyString
  | String a s' =>
      if strings.ContainsRune s' c then afterLast c s'
      else if Ascii.eqb a c then s' else s
  end.

Fixpoint beforeFirst (c : ascii) (s : string) : string :=
  match s with
  | EmptyString => EmptyString
  | String a s' =>
      if Ascii.eqb a c then EmptyString else String a (beforeFirst c s')
  end.

Fixpoint beforeLast (c : ascii) (s : string) : string :=
  match s with
  | EmptyString => EmptyString
  | String a s' =>
      if strings.ContainsRune s' c then String a (beforeLast c s')
      else if Ascii.eqb a c then EmptyString else s
  end.

(** The label of a path component or of a method name: its words,
    composed. *)
Definition label `{CaseMapping} (p : string) : string :=
  gosentence.Transform (words p) [].

(** The method of a test name: what follows the last ['.'], without the
    parameter list that the last ['('] opens. *)
Definition methodName (name : string) : string :=
  let fnName := afterLast "." name in
  if strings.ContainsRune fnName "(" then beforeLast "(" fnName else fnName.

(** A test with the given name and type, and nothing else. *)
Definition namedTest (name type : string) : xunit.test :=
  {| xunit.test_Name := name; xunit.test_Type := type;
     xunit.test_Result := ""; xunit.test_Time := 0%N;
     xunit.TraitSet := {| xunit.Traits := [] |} |}.

(** The tests of the examples: a display name that mentions the type, a
    display name without a type attribute, the nested test of the
    repository's test, and a nested theory whose argument holds a ['.']. *)
Definition calculatorTest : xunit.test :=
  namedTest "MyApp.Calculator adds two numbers" "MyApp.Calculator".

Definition sumTest : xunit.test := namedTest "Adds 1 + 2" "".

Definition scenarioTest : xunit.test :=
  namedTest "NS1.Class.SubClass.TestClass+Method+Scenario+SubScenario.Result"
            "NS1.Class.SubClass.TestClass+Method+Scenario+SubScenario".

Definition theoryTest : xunit.test :=
  namedTest "NS.Outer+Inner.Method(x: 1.5)" "NS.Outer+Inner".

(** *** The report builder *)

(** The tests of an assembly, across its collections. *)
Definition allTests (a : xunit.assembly) : list xunit.test :=
  concat (map xunit.Tests (xunit.Collections a)).

(** The buckets a test is added to: one per trait it carries, the bucket
    of the empty string when it carries none. *)
Definition keysOf (t : xunit.test) : list string :=
  match xunit.Traits (xunit.TraitSet t) with
  | [] => [""]
  | traits => map xunit.trait_friendlyName traits
  end.

(** How many times a test is added to the bucket [key]. *)
Definition copies (key : string) (t : xunit.test) : nat :=
  length (filter (λ k, k = key) (keysOf t)).

(** The friendly name and the structural path of a test. *)
Definition displayName `{CaseMapping} (t : xunit.test) : string :=
  if xunit.hasDisplayName t then xunit.test_Name t
  else label (methodName (xunit.test_Name t)).

Definition pathOf `{CaseMapping} (t : xunit.test) : slice string :=
  if xunit.isNested t then
    match strings.Split (xunit.test_Name t) "+" with
    | first :: rest =>
        match last rest with
        | Some final =>
            mk_slice (map label (afterLast "." first
                                 :: removelast rest ++ [beforeFirst "." final]))
        | None => make
        end
    | [] => make
    end
  else make.

(** The test case that stands for a test in the index. *)
Definition caseOf `{CaseMapping} (t : xunit.test) : xunit.TestCase :=
  {| xunit.TestCase_Name := displayName t;
     xunit.TestCase_groups := pathOf t;
     xunit.TestCase_Result := xunit.test_Result t;
     xunit.TestCase_Time := xunit.test_Time t |}.

(** The bucket of [key] after the tests [ts] have been indexed. *)
Definition bucketOf `{CaseMapping} (key : string) (ts : list xunit.test)
  : list xunit.TestCase :=
  concat (map (λ t, replicate (copies key t) (caseOf t)) ts).

(** The test cases of a group, at every depth. *)
Fixpoint allCases (g : xunit.TestGroup) : list xunit.TestCase :=
  match g with
  | xunit.Build_TestGroup _ tests groups =>
      elems tests ++
      match groups with
      | nil_slice => []
      | mk_slice gs =>
          (fix collect (gs : list xunit.TestGroup) : list xunit.TestCase :=
             match gs with
             | [] => []
             | g' :: gs' => allCases g' ++ collect gs'
             end) gs
      end
  end.

(** An assembly of one collection with the given tests. *)
Definition assemblyOf (ts : list xunit.test) : xunit.assembly :=
  {| xunit.FullName := "app.dll";
     xunit.assembly_ErrorCount := 0; xunit.assembly_PassedCount := 0;
     xunit.assembly_FailedCount := 0; xunit.assembly_NotRunCount := 0;
     xunit.Total := 0; xunit.assembly_RunDate := "";
     xunit.assembly_RunTime := ""; xunit.assembly_TimeRTF := "";
     xunit.assembly_Time := 0%N;
     xunit.Collections := [ {| xunit.Tests := ts |} ] |}.

(** A test with two traits that render to the same key, and a test with
    two traits that do not. *)
Definition sameKeyTest : xunit.test :=
  {| xunit.test_Name := "Runs fast"; xunit.test_Type := "NS.Suite";
     xunit.test_Result := "Pass"; xunit.test_Time := 0%N;
     xunit.TraitSet := {| xunit.Traits :=
       [ {| xunit.trait_Name := "Size - Big"; xunit.trait_Value := "Fast" |};
         {| xunit.trait_Name := "Size"; xunit.trait_Value := "Big - Fast" |} ] |} |}.

Definition twoTraitsTest : xunit.test :=
  {| xunit.test_Name := "Runs slow"; xunit.test_Type := "NS.Suite";
     xunit.test_Result := "Pass"; xunit.test_Time := 0%N;
     xunit.TraitSet := {| xunit.Traits :=
       [ {| xunit.trait_Name := "Timing"; xunit.trait_Value := "Slow" |};
         {| xunit.trait_Name := "Category"; xunit.trait_Value := "Unit" |} ] |} |}.

(** A reader to run the examples with: a document is well formed when it
    opens a tag, carries the marker when the tag is [assemblies], and
    decodes to the empty tree. *)
Definition exampleReader : xunit.XmlReader :=
  {| xunit.wellFormed := String.prefix "<";
     xunit.hasMarker := String.prefix "<assemblies";
     xunit.decoded := λ _, xunit.result_zero |}.

(** The index after a test has been added to each of its buckets, and the
    group that the cases of a bucket build. *)
Definition addKeys `{CaseMapping} (t : xunit.test)
    (m : gmap string (list xunit.TestCase)) : gmap string (list xunit.TestCase) :=
  foldl (λ m key, xunit.addCase m key (caseOf t)) m (keysOf t).

Definition groupOf (testMap : gmap string (list xunit.TestCase))
    (trait : string) : xunit.TestGroup :=
  foldl xunit.placeCase (xunit.Build_TestGroup trait make nil_slice)
    (xunit.bucket testMap trait).

(** The assembly of the examples. *)
Definition exampleAssembly : xunit.assembly :=
  assemblyOf [twoTraitsTest; scenarioTest; sumTest].

(** *** The documents of the repository's tests

    The tree that the "complex XML document" of [TestLoad] decodes to,
    and the report the test expects for it. *)
Definition testOf (name type result : string) (traits : list xunit.trait)
  : xunit.test :=
  {| xunit.test_Name := name; xunit.test_Type := type;
     xunit.test_Result := result; xunit.test_Time := 0%N;
     xunit.TraitSet := {| xunit.Traits := traits |} |}.

Definition traitOf (name value : string) : xunit.trait :=
  {| xunit.trait_Name := name; xunit.trait_Value := value |}.

Definition complexResult : xunit.result :=
  {| xunit.result_Computer := "WIN11"; xunit.result_User := "Kevin";
     xunit.StartRTF := "2000-12-01"; xunit.FinishRTF := "2001-12-01";
     xunit.result_Timestamp := "2001-12-02";
     xunit.result_Assemblies :=
       [ {| xunit.FullName := "~/parent/sub/app.dll";
            xunit.assembly_ErrorCount := 1; xunit.assembly_PassedCount := 3;
            xunit.assembly_FailedCount := 2; xunit.assembly_NotRunCount := 4;
            xunit.Total := 5; xunit.assembly_RunDate := "07/10/2023";
            xunit.assembly_RunTime := "20:53:19";
            xunit.assembly_TimeRTF := "2000-12-01";
            xunit.assembly_Time := 0%N;
            xunit.Collections :=
              [ {| xunit.Tests :=
                [ testOf "A test with a display name." "NS" "Pass" [];
                  testOf "NS1.Class.SubClass.TestClass.TestMethod"
                         "NS1.Class.SubClass.TestClass.TestMethod" "Fail" [];
                  testOf "NS1.Class.SubClass.TestClass.ParameterizedTestMethod(arg: null)"
                         "NS1.Class.SubClass.TestClass.ParameterizedTestMethod"
                         "Fail" [];
                  testOf "NS1.Class.SubClass.TestClass+Method+Scenario+SubScenario.Result"
                         "NS1.Class.SubClass.TestClass+Method+Scenario+SubScenario"
                         "Pass" [];
                  testOf "NS1.Class.SubClass.TestClass+Method+Scenario2+SubScenario.Result"
                         "NS1.Class.SubClass.TestClass+Method+Scenario2+SubScenario"
                         "Pass" [];
                  testOf "A test with a display name (with a trait)." "NS" "Pass"
                         [traitOf "Category" "Unit"];
                  testOf "A test with a display name (with multiple traits)."
                         "NS" "Pass"
                         [traitOf "Category" "Unit"; traitOf "Timing" "Slow"] ]
              |} ] |} ] |}.

Definition passed (name : string) : xunit.TestCase :=
  {| xunit.TestCase_Name := name; xunit.TestCase_Result := "Pass";
     xunit.TestCase_Time := 0%N; xunit.TestCase_groups := nil_slice |}.

Definition failed (name : string) : xunit.TestCase :=
  {| xunit.TestCase_Name := name; xunit.TestCase_Result := "Fail";
     xunit.TestCase_Time := 0%N; xunit.TestCase_groups := nil_slice |}.

Definition subScenario : xunit.TestGroup :=
  xunit.Build_TestGroup "Sub scenario" (mk_slice [passed "Result"]) nil_slice.

Definition complexRun : xunit.TestRun :=
  {| xunit.Computer := "WIN11"; xunit.User := "Kevin";
     xunit.StartTimeRTF := "2000-12-01"; xunit.EndTimeRTF := "2001-12-01";
     xunit.Timestamp := "2001-12-02";
     xunit.Assemblies := mk_slice
       [ {| xunit.Assembly_Name := "app.dll";
            xunit.ErrorCount := 1; xunit.PassedCount := 3;
            xunit.FailedCount := 2; xunit.NotRunCount := 4;
            xunit.TotalCount := 5; xunit.RunDate := "07/10/2023";
            xunit.RunTime := "20:53:19"; xunit.Time := 0%N;
            xunit.TimeRTF := "2000-12-01";
            xunit.TestGroups := mk_slice
              [ xunit.Build_TestGroup ""
                  (mk_slice [ passed "A test with a display name.";
                              failed "Test method";
                              failed "Parameterized test method" ])
                  (mk_slice
                     [ xunit.Build_TestGroup "Test class" nil_slice (mk_slice
                       [ xunit.Build_TestGroup "Method" nil_slice (mk_slice
                         [ xunit.Build_TestGroup "Scenario" nil_slice
                             (mk_slice [subScenario]);
                           xunit.Build_TestGroup "Scenario 2" nil_slice
                             (mk_slice [subScenario]) ]) ]) ]);
                xunit.Build_TestGroup "Category - Unit"
                  (mk_slice
                     [ passed "A test with a display name (with a trait).";
                       passed "A test with a display name (with multiple traits)." ])
                  nil_slice;
                xunit.Build_TestGroup "Timing - Slow"
                  (mk_slice
                     [ passed "A test with a display name (with multiple traits)." ])
                  nil_slice ] |} ] |}.

(** *** More on the splitter *)

(** A token of the rules: unclassified bytes, then the bytes that
    [tokenLen] counts from a classified one. *)
Definition isToken (w : string) : Prop :=
  ∃ pending c rest,
    w = str (pending ++ take (rules.tokenLen c rest) (c :: rest))
    ∧ Forall (λ b, rules.classified b = false) pending
    ∧ rules.classified c = true.

(** The last end index, the start when there is none. *)
Definition lastEnd (ends : list Z) : Z := default 0 (last ends).

(** *** More on the group trees *)

(** The groups directly below a group. *)
Definition subgroups (g : xunit.TestGroup) : list xunit.TestGroup :=
  elems (xunit.TestGroup_Groups g).

(** [P] holds of a group and of every group below it. *)
Fixpoint everywhere (P : xunit.TestGroup → Prop) (g : xunit.TestGroup)
  : Prop :=
  P g ∧
  match g with
  | xunit.Build_TestGroup _ _ groups =>
      match groups with
      | nil_slice => True
      | mk_slice gs =>
          (fix all (gs : list xunit.TestGroup) : Prop :=
             match gs with
             | [] => True
             | g' :: gs' => everywhere P g' ∧ all gs'
             end) gs
      end
  end.

(** No two groups directly below a group have the same name. *)
Definition distinctNames (g : xunit.TestGroup) : Prop :=
  NoDup (map xunit.TestGroup_Name (subgroups g)).

(** A group holds a test or a group. *)
Definition inhabited (g : xunit.TestGroup) : Prop :=
  elems (xunit.TestGroup_Tests g) ≠ [] ∨ subgroups g ≠ [].

(** The group that a path of names leads to, from a group: at every step
    the first group of that name. *)
Fixpoint descend (names : list string) (g : xunit.TestGroup)
  : option xunit.TestGroup :=
  match names with
  | [] => Some g
  | nn :: rest =>
      match list_find (λ s, xunit.TestGroup_Name s = nn) (subgroups g) with
      | Some (_, s) => descend rest s
      | None => None
      end
  end.

(** A test case without a structural path. *)
Definition isFlat (tc : xunit.TestCase) : bool :=
  match elems (xunit.TestCase_groups tc) with [] => true | _ => false end.

(** The group of a trait before the cases of its bucket are placed. *)
Definition freshGroup (trait : string) : xunit.TestGroup :=
  xunit.Build_TestGroup trait make nil_slice.

(** What the loop over the path of a test case makes of the group
    [sGroup] it has stepped into, [rest] being the names still to
    visit. *)
Definition visitOf (tc : xunit.TestCase) (rest : list string)
    (sGroup : xunit.TestGroup) : xunit.TestGroup :=
  xunit.walk tc rest
    (match rest with [] => xunit.addTest sGroup tc | _ => sGroup end).

(** The test case [x] is among the tests of the group that the path [p]
    leads to from [g]. *)
Definition foundAt (p : list string) (g : xunit.TestGroup)
    (x : xunit.TestCase) : Prop :=
  ∃ s, descend p g = Some s ∧ x ∈ elems (xunit.TestGroup_Tests s).

(** Two test cases to run the examples with: one under a path of two
    names, one without a path. *)
Definition nestedCase : xunit.TestCase :=
  {| xunit.TestCase_Name := "Result"; xunit.TestCase_Result := "Pass";
     xunit.TestCase_Time := 0%N;
     xunit.TestCase_groups := mk_slice ["Test class"; "Method"] |}.

Definition flatCase : xunit.TestCase :=
  {| xunit.TestCase_Name := "Adds two numbers";
     xunit.TestCase_Result := "Fail"; xunit.TestCase_Time := 0%N;
     xunit.TestCase_groups := make |}.

(** *** The report of a document *)

(** An assembly of the report takes its counters, its date and its times
    from the assembly of the document, and its groups from
    [groupTests]. *)
Definition reports `{CaseMapping} (a : xunit.assembly) (A : xunit.Assembly)
  : Prop :=
  xunit.ErrorCount A = xunit.assembly_ErrorCount a
  ∧ xunit.PassedCount A = xunit.assembly_PassedCount a
  ∧ xunit.FailedCount A = xunit.assembly_FailedCount a
  ∧ xunit.NotRunCount A = xunit.assembly_NotRunCount a
  ∧ xunit.TotalCount A = xunit.Total a
  ∧ xunit.RunDate A = xunit.assembly_RunDate a
  ∧ xunit.RunTime A = xunit.assembly_RunTime a
  ∧ xunit.TimeRTF A = xunit.assembly_TimeRTF a
  ∧ xunit.Time A = xunit.assembly_Time a
  ∧ xunit.groupTests a = Some (xunit.TestGroups A).

(** *** The printed report *)

(** The test that a call of [fmt.Printf] reports: its name and its time,
    when the call is the line of a test. *)
Definition printedTest (o : main.output) : option (string * xunit.float32) :=
  match o with
  | main.Printf _ [main.argString _; main.argString _; main.argString name;
                   main.argFloat time] => Some (name, time)
  | _ => None
  end.

(** The group that a call of [fmt.Printf] announces, when the call is
    the header of a group. *)
Definition printedGroup (o : main.output) : option string :=
  match o with
  | main.Printf _ [main.argString _; main.argString name] => Some name
  | _ => None
  end.

(** The names of a group and of the groups below it, the group first. *)
Fixpoint allNames (g : xunit.TestGroup) : list string :=
  match g with
  | xunit.Build_TestGroup name _ groups =>
      name ::
      match groups with
      | nil_slice => []
      | mk_slice gs =>
          (fix collect (gs : list xunit.TestGroup) : list string :=
             match gs with
             | [] => []
             | g' :: gs' => allNames g' ++ collect gs'
             end) gs
      end
  end.

(** *** The assertions *)

(** Values to run the examples with: strings, integers, booleans and
    [nil], and a formatter that knows the verbs [%s], [%v], [%d], [%t]
    and [%%] and takes one operand for each verb. *)
Inductive value :=
| vString (s : string)
| vInt (n : Z)
| vBool (b : bool)
| vNil.

Definition render (v : value) : string :=
  match v with
  | vString s => s
  | vInt n => pretty n
  | vBool true => "true"
  | vBool false => "false"
  | vNil => "<nil>"
  end.

Fixpoint formatWith (format : string) (args : list value) : string :=
  match format with
  | EmptyString => EmptyString
  | String c EmptyString => format
  | String c (String verb format' as tail) =>
      if Ascii.eqb c "%" then
        if Ascii.eqb verb "%" then String "%" (formatWith format' args)
        else
          match args with
          | a :: args' => render a +:+ formatWith format' args'
          | [] => formatWith format' []
          end
      else String c (formatWith tail args)
  end.

#[export] Instance exampleValues : assert.Values := {|
  assert.any := value;
  assert.ofString := vString;
  assert.ofInt := vInt;
  assert.isNil := λ v, match v with vNil => true | _ => false end;
  assert.asString := λ v, match v with vString s => Some s | _ => None end;
  assert.Sprintf := formatWith |}.

#[export] Instance int_Comparable : assert.Comparable Z := {|
  assert.toAny := vInt;
  assert.equal := Z.eqb |}.

(** A [testableT] that has not failed. *)
Definition newT : assert.testableT :=
  {| assert.isFailed := false; assert.failureMsg := "" |}.

(** *** Labels *)

(** A string without its spaces. *)
Fixpoint dropSpaces (s : string) : string :=
  match s with
  | EmptyString => EmptyString
  | String c s' =>
      if Ascii.eqb c " " then dropSpaces s' else String c (dropSpaces s')
  end.

(** * Properties *)

(** ** The repository's tests

    The model gives what the tests of the packages expect. *)
Section RepositoryTests.
Import xunit.

Example camelcase_TestEqual :
  map camelcase.Split
    [ ""; badUTF8; "lowercase"; "Uppercase"; "MultipleWords"; "MyID"; "HTML";
      "PDFLoader"; "ASample"; "EasyXMLParser"; "vimRPCPlugin"; "GL11Version";
      "10"; "10Validators"; "May5"; "BFG9000"; "Html2Version"; "5May2000";
      "Two  spaces" ]
  = map Some
      [ [""]; [badUTF8]; ["lowercase"]; ["Uppercase"]; ["Multiple"; "Words"];
        ["My"; "ID"]; ["HTML"]; ["PDF"; "Loader"]; ["A"; "Sample"];
        ["Easy"; "XML"; "Parser"]; ["vim"; "RPC"; "Plugin"];
        ["GL"; "11"; "Version"]; ["10"]; ["10"; "Validators"]; ["May"; "5"];
        ["BFG"; "9000"]; ["Html"; "2"; "Version"]; ["5"; "May"; "2000"];
        ["Two"; "  "; "spaces"] ].
Proof. vm_compute. reflexivity. Qed.

Example gosentence_TestName `{CaseMapping} :
  gosentence.Transform [""] [] = ""
  ∧ gosentence.Transform ["A"; "collection"; "of"; "words"] []
    = "A collection of words"
  ∧ gosentence.Transform ["An"; "HTTP"; "&"; "SqlQuery"] ["HTTP"; "SqlQuery"]
    = "An HTTP & SqlQuery".
Proof. by split_and!. Qed.

Example paths_TestName :
  paths.Name "/home/user/development/file.dll" = "file.dll"
  ∧ paths.Name "C:\user\development\file.dll" = "file.dll".
Proof. by split. Qed.

Example xunit_TestLoad `{CaseMapping} :
  readResult complexResult = Some complexRun.
Proof. vm_compute. reflexivity. Qed.
End RepositoryTests.

(** ** Strings as lists of bytes *)
Section Bytes.
Implicit Types (v w : string) (l : list ascii) (n m : nat).

Lemma str_bytes v : str (bytes v) = v.
Proof. apply string_of_list_ascii_of_string. Qed.

Lemma bytes_str l : bytes (str l) = l.
Proof. apply list_ascii_of_string_of_list_ascii. Qed.

Lemma bytes_inj v w : bytes v = bytes w → v = w.
Proof. intros E. rewrite <- (str_bytes v), E. apply str_bytes. Qed.

Lemma length_bytes v : length (bytes v) = String.length v.
Proof. induction v as [|c v IH]; simpl; [done | by rewrite IH]. Qed.

Lemma get_bytes v n : String.get n v = bytes v !! n.
Proof.
  revert n. induction v as [|c v IH]; intros [|n]; simpl; try done.
Qed.

Lemma bytes_app v w : bytes (v +:+ w) = bytes v ++ bytes w.
Proof. induction v as [|c v IH]; simpl; [done | by rewrite <- IH]. Qed.

Lemma bytes_substring v n m :
  bytes (String.substring n m v) = take m (drop n (bytes v)).
Proof.
  revert n m. induction v as [|c v IH]; intros [|n] [|m]; simpl; try done.
  all: rewrite ?IH; try done.
Qed.
End Bytes.

Section Splitter.
Import unicode strings camelcase rules.
Implicit Types (v : string) (l : list ascii) (p : ascii → bool).
Local Arguments scanWhile : simpl never.
Local Arguments fuelFor : simpl never.

Lemma len_bytes v : len v = Z.of_nat (length (bytes v)).
Proof. unfold len. by rewrite length_bytes. Qed.

Lemma byteAt_nat v (i : nat) : byteAt v (Z.of_nat i) = bytes v !! i.
Proof.
  unfold byteAt. destruct (Z.leb_spec 0 (Z.of_nat i)); [|lia].
  by rewrite Nat2Z.id, get_bytes.
Qed.

Lemma substr_cut v (lo hi : Z) :
  0 ≤ lo ≤ hi → hi ≤ len v →
  substr v lo hi
  = Some (str (take (Z.to_nat (hi - lo)) (drop (Z.to_nat lo) (bytes v)))).
Proof.
  intros Hlo Hhi. unfold substr.
  destruct (Z.leb_spec 0 lo); [|lia].
  destruct (Z.leb_spec lo hi); [|lia].
  destruct (Z.leb_spec hi (len v)); [|lia].
  simpl. f_equal. apply bytes_inj. by rewrite bytes_substring, bytes_str.
Qed.

Lemma run_le p l : (run p l ≤ length l)%nat.
Proof. induction l as [|c l IH]; simpl; [lia|]. destruct (p c); simpl; lia. Qed.

Lemma scanWhile_run p v fuel (i : nat) :
  (i ≤ length (bytes v))%nat → (length (bytes v) - i < fuel)%nat →
  scanWhile p v fuel (Z.of_nat i)
  = Some (Z.of_nat (i + run p (drop i (bytes v)))).
Proof.
  revert i. induction fuel as [|fuel IH]; intros i Hi Hfuel; [lia|].
  unfold scanWhile; fold scanWhile. rewrite len_bytes.
  destruct (Z.ltb_spec (Z.of_nat i) (Z.of_nat (length (bytes v)))) as [Hlt|Hge].
  - destruct (lookup_lt_is_Some_2 (bytes v) i) as [c Hc]; [lia|].
    rewrite byteAt_nat, Hc. simpl.
    rewrite (drop_S _ _ _ Hc). simpl. destruct (p c).
    + replace (Z.of_nat i + 1) with (Z.of_nat (S i)) by lia.
      rewrite IH by lia. f_equal. lia.
    + f_equal. lia.
  - rewrite drop_ge by lia. simpl. f_equal. lia.
Qed.

Lemma fuelFor_enough v (i : nat) : (length (bytes v) - i < fuelFor v)%nat.
Proof. unfold fuelFor. rewrite length_bytes. lia. Qed.

Lemma wordLen_bounds rest : (1 ≤ wordLen rest ≤ S (length rest))%nat.
Proof.
  unfold wordLen. destruct rest as [|next rest]; [lia|].
  destruct (IsUpper next) eqn:Hup.
  - pose proof (run_le IsUpper (next :: rest)) as Hle.
    assert (1 ≤ run IsUpper (next :: rest))%nat as Hge
      by (simpl; rewrite Hup; lia).
    destruct (drop _ _) as [|after ?]; [lia|].
    destruct (IsDigit after); lia.
  - pose proof (run_le IsLower (next :: rest)). lia.
Qed.

Lemma tokenLen_bounds c rest : (1 ≤ tokenLen c rest ≤ S (length rest))%nat.
Proof.
  unfold tokenLen.
  pose proof (run_le IsNumber rest). pose proof (run_le IsSpace rest).
  pose proof (wordLen_bounds rest).
  destruct (IsNumber c); [lia|]. destruct (IsUpper c || IsLower c); lia.
Qed.

(** The three scanners return the last index of the token of the rules. *)
Lemma getNumberEndPos_run v (i : nat) :
  (i < length (bytes v))%nat →
  getNumberEndPos v (Z.of_nat i)
  = Some (Z.of_nat (i + run IsNumber (drop (S i) (bytes v)))).
Proof.
  intros Hi. unfold getNumberEndPos.
  replace (Z.of_nat i + 1) with (Z.of_nat (S i)) by lia.
  rewrite scanWhile_run by (auto using fuelFor_enough; lia).
  simpl. f_equal. lia.
Qed.

Lemma getSpaceEndPos_run v (i : nat) :
  (i < length (bytes v))%nat →
  getSpaceEndPos v (Z.of_nat i)
  = Some (Z.of_nat (i + run IsSpace (drop (S i) (bytes v)))).
Proof.
  intros Hi. unfold getSpaceEndPos.
  replace (Z.of_nat i + 1) with (Z.of_nat (S i)) by lia.
  rewrite scanWhile_run by (auto using fuelFor_enough; lia).
  simpl. f_equal. lia.
Qed.

Lemma getWordEndPos_wordLen v (i : nat) :
  (i < length (bytes v))%nat →
  getWordEndPos v (Z.of_nat i)
  = Some (Z.of_nat (i + wordLen (drop (S i) (bytes v))) - 1).
Proof.
  intros Hi. unfold getWordEndPos, wordLen.
  replace (Z.of_nat i + 1) with (Z.of_nat (S i)) by lia.
  rewrite len_bytes, byteAt_nat.
  destruct (Z.ltb_spec (Z.of_nat (S i)) (Z.of_nat (length (bytes v))))
    as [Hlt|Hge].
  - destruct (lookup_lt_is_Some_2 (bytes v) (S i)) as [next Hnext]; [lia|].
    rewrite Hnext. simpl. rewrite (drop_S _ _ _ Hnext).
    destruct (IsUpper next) eqn:Hup.
    + rewrite scanWhile_run by (auto using fuelFor_enough; lia). simpl.
      rewrite (drop_S _ _ _ Hnext). simpl. rewrite Hup.
      set (k := run IsUpper (drop (S (S i)) (bytes v))).
      pose proof (run_le IsUpper (drop (S (S i)) (bytes v))) as Hk.
      rewrite length_drop in Hk. fold k in Hk.
      rewrite byteAt_nat. rewrite <- (drop_S _ _ _ Hnext), drop_drop.
      change (S i + S k)%nat with (S (i + S k)).
      destruct (Z.ltb_spec (Z.of_nat (S (i + S k)))
                  (Z.of_nat (length (bytes v)))) as [Hlt'|Hge'].
      * destruct (lookup_lt_is_Some_2 (bytes v) (S (i + S k)))
          as [after Hafter]; [lia|].
        rewrite Hafter. simpl. rewrite (drop_S _ _ _ Hafter).
        destruct (IsDigit after); f_equal; lia.
      * rewrite drop_ge by lia. f_equal. lia.
    + rewrite scanWhile_run by (auto using fuelFor_enough; lia). simpl.
      rewrite (drop_S _ _ _ Hnext). simpl. f_equal. lia.
  - simpl. rewrite scanWhile_run by (auto using fuelFor_enough; lia). simpl.
    rewrite drop_ge by lia. simpl. f_equal. lia.
Qed.
End Splitter.

Section SplitLoop.
Import unicode strings camelcase rules.
Implicit Types (v : string) (l : list ascii) (p : ascii → bool).
Local Arguments scanWhile : simpl never.
Local Arguments fuelFor : simpl never.

Lemma splitLoop_step v fuel (i : nat) acc c :
  bytes v !! i = Some c →
  splitLoop (S fuel) v (Z.of_nat i) acc
  = if classified c
    then let e := Z.of_nat (i + tokenLen c (drop (S i) (bytes v))) in
         splitLoop fuel v e (acc ++ [e])
    else splitLoop fuel v (Z.of_nat (S i)) acc.
Proof.
  intros Hc. pose proof (lookup_lt_Some _ _ _ Hc) as Hi.
  unfold splitLoop; fold splitLoop. rewrite len_bytes.
  destruct (Z.ltb_spec (Z.of_nat i) (Z.of_nat (length (bytes v)))); [|lia].
  rewrite byteAt_nat, Hc. simpl. unfold classified, tokenLen.
  destruct (IsNumber c); simpl.
  { rewrite getNumberEndPos_run by done. simpl.
    by replace (Z.of_nat (i + run IsNumber (drop (S i) (bytes v))) + 1)
      with (Z.of_nat (i + S (run IsNumber (drop (S i) (bytes v))))) by lia. }
  destruct (IsUpper c || IsLower c); simpl.
  { rewrite getWordEndPos_wordLen by done. simpl.
    by replace (Z.of_nat (i + wordLen (drop (S i) (bytes v))) - 1 + 1)
      with (Z.of_nat (i + wordLen (drop (S i) (bytes v)))) by lia. }
  destruct (IsSpace c); simpl.
  { rewrite getSpaceEndPos_run by done. simpl.
    by replace (Z.of_nat (i + run IsSpace (drop (S i) (bytes v))) + 1)
      with (Z.of_nat (i + S (run IsSpace (drop (S i) (bytes v))))) by lia. }
  by replace (Z.of_nat i + 1) with (Z.of_nat (S i)) by lia.
Qed.

Lemma take_drop_split {A} (l : list A) (s pos e : nat) :
  (s ≤ pos ≤ e)%nat →
  take (e - s) (drop s l)
  = take (pos - s) (drop s l) ++ take (e - pos) (drop pos l).
Proof.
  intros H. replace (e - s)%nat with ((pos - s) + (e - pos))%nat by lia.
  rewrite <- take_take_drop, drop_drop.
  by replace (s + (pos - s))%nat with pos by lia.
Qed.

(** The loop of [Split] computes the end indexes of the tokens of the
    rules. *)
Lemma splitLoop_tokens v fuel fuelT (s pos : nat) acc :
  (s ≤ pos ≤ length (bytes v))%nat →
  (length (bytes v) - pos < fuel)%nat →
  (length (bytes v) - pos ≤ fuelT)%nat →
  ∃ ends,
    splitLoop fuel v (Z.of_nat pos) acc = Some (acc ++ ends)
    ∧ chain (Z.of_nat s) ends (len v)
    ∧ cut (bytes v) (Z.of_nat s) ends
      = tokensFrom fuelT (take (pos - s) (drop s (bytes v)))
          (drop pos (bytes v)).
Proof.
  revert fuelT s pos acc.
  induction fuel as [|fuel IH]; intros fuelT s pos acc Hpos Hfuel HfuelT;
    [lia|].
  destruct (decide (pos < length (bytes v))%nat) as [Hlt|Hge].
  - destruct (lookup_lt_is_Some_2 (bytes v) pos) as [c Hc]; [done|].
    destruct fuelT as [|fuelT]; [lia|].
    rewrite (splitLoop_step _ _ _ _ _ Hc), (drop_S _ _ _ Hc).
    cbn [tokensFrom]. destruct (classified c).
    + pose proof (tokenLen_bounds c (drop (S pos) (bytes v))) as Hn.
      rewrite length_drop in Hn.
      set (n := tokenLen c (drop (S pos) (bytes v))) in *. cbv zeta.
      destruct (IH fuelT (pos + n)%nat (pos + n)%nat
                  (acc ++ [Z.of_nat (pos + n)]))
        as (ends & Hrun & Hchain & Hcut); [lia..|].
      exists (Z.of_nat (pos + n) :: ends). split_and!.
      * by rewrite Hrun, <- app_assoc.
      * cbn [chain]. split; [rewrite len_bytes; lia | done].
      * cbn [cut]. rewrite Hcut. f_equal.
        -- f_equal. rewrite <- (drop_S _ _ _ Hc).
           replace (Z.to_nat (Z.of_nat (pos + n) - Z.of_nat s))
             with ((pos + n) - s)%nat by lia.
           rewrite Nat2Z.id, (take_drop_split _ s pos) by lia.
           do 2 f_equal. lia.
        -- f_equal.
           ++ replace (pos + n - (pos + n))%nat with O by lia. done.
           ++ by rewrite <- (drop_S _ _ _ Hc), drop_drop.
    + destruct (IH fuelT s (S pos) acc) as (ends & Hrun & Hchain & Hcut);
        [lia..|].
      exists ends. split_and!; [done..|]. rewrite Hcut. f_equal.
      replace (S pos - s)%nat with ((pos - s) + 1)%nat by lia.
      rewrite <- take_take_drop, drop_drop.
      replace (s + (pos - s))%nat with pos by lia.
      by rewrite (drop_S _ _ _ Hc).
  - exists []. rewrite (drop_ge _ pos) by lia.
    unfold splitLoop; fold splitLoop. rewrite len_bytes.
    destruct (Z.ltb_spec (Z.of_nat pos) (Z.of_nat (length (bytes v))));
      [lia|].
    rewrite app_nil_r. split_and!; [done..|]. by destruct fuelT.
Qed.

(** [extractWordsByIndexes] cuts the string at a subdivision. *)
Lemma extractLoop_cut v fuel (pre post : list Z) words :
  let start := default 0 (last pre) in
  0 ≤ start → chain start post (len v) →
  (length post < fuel)%nat →
  extractLoop fuel v (pre ++ post) (Z.of_nat (length pre)) words
  = Some (words ++ cut (bytes v) start post).
Proof.
  revert fuel pre words.
  induction post as [|e post IH]; intros fuel pre words start H0 Hchain Hfuel;
    (destruct fuel as [|fuel]; [simpl in Hfuel; lia|]);
    unfold extractLoop; fold extractLoop.
  - rewrite app_nil_r.
    destruct (Z.ltb_spec (Z.of_nat (length pre)) (Z.of_nat (length pre)));
      [lia|]. by rewrite app_nil_r.
  - destruct Hchain as [He Hchain].
    rewrite length_app. simpl length.
    destruct (Z.ltb_spec (Z.of_nat (length pre))
                (Z.of_nat (length pre + S (length post)))); [|lia].
    assert (index (pre ++ e :: post) (Z.of_nat (length pre)) = Some e)
      as ->.
    { unfold index. destruct (Z.leb_spec 0 (Z.of_nat (length pre))); [|lia].
      rewrite Nat2Z.id. by apply list_lookup_middle. }
    simpl.
    destruct (Z.leb_spec 0 e); [|lia].
    destruct (Z.leb_spec e (len v)); [|lia]. simpl.
    assert ((if Z.of_nat (length pre) =? 0 then Some 0
             else index (pre ++ e :: post) (Z.of_nat (length pre) - 1))
            = Some start) as ->.
    { subst start. destruct pre as [|x pre _] using rev_ind; [done|].
      rewrite last_snoc, length_app. simpl.
      destruct (Z.eqb_spec (Z.of_nat (length pre + 1)) 0); [lia|].
      unfold index.
      destruct (Z.leb_spec 0 (Z.of_nat (length pre + 1) - 1)); [|lia].
      replace (Z.to_nat (Z.of_nat (length pre + 1) - 1)) with (length pre)
        by lia.
      rewrite <- app_assoc. by apply list_lookup_middle. }
    simpl. rewrite substr_cut by lia. simpl.
    replace (Z.of_nat (length pre) + 1) with (Z.of_nat (length (pre ++ [e])))
      by (rewrite length_app; simpl; lia).
    replace (pre ++ e :: post) with ((pre ++ [e]) ++ post)
      by (by rewrite <- app_assoc).
    rewrite IH.
    + rewrite last_snoc. simpl. by rewrite <- app_assoc.
    + rewrite last_snoc. simpl. lia.
    + by rewrite last_snoc.
    + simpl in Hfuel. lia.
Qed.

(** The refinement: on a valid string the code returns the tokens of
    the rules. *)
Lemma Split_tokens v : isValid v = true → Split v = Some (tokens v).
Proof.
  intros Hvalid. unfold Split. rewrite Hvalid. cbn [negb].
  destruct (splitLoop_tokens v (fuelFor v) (String.length v) 0 0 [])
    as (ends & Hrun & Hchain & Hcut).
  - lia.
  - apply fuelFor_enough.
  - rewrite length_bytes. lia.
  - change (Z.of_nat 0) with 0 in *. rewrite Hrun. simpl.
    unfold extractWordsByIndexes.
    rewrite (extractLoop_cut v _ [] ends []); [|done..|lia].
    simpl. by rewrite Hcut.
Qed.

Lemma Split_invalid v : isValid v = false → Split v = Some [v].
Proof. intros Hvalid. unfold Split. by rewrite Hvalid. Qed.

(** [Split] never panics. *)
Lemma Split_total v : is_Some (Split v).
Proof.
  destruct (isValid v) eqn:Hvalid.
  - rewrite Split_tokens by done. eauto.
  - rewrite Split_invalid by done. eauto.
Qed.
End SplitLoop.

Section Lossless.
Import unicode strings camelcase rules.
Implicit Types (v : string) (l rest pending : list ascii) (p : ascii → bool).

Lemma bytes_concat (ws : list string) :
  bytes (String.concat "" ws) = concat (map bytes ws).
Proof.
  induction ws as [|w ws IH]; [done|]. simpl.
  destruct ws as [|w' ws].
  - simpl. by rewrite app_nil_r.
  - rewrite !bytes_app, IH. done.
Qed.

Lemma forallBytes_Forall p v :
  forallBytes p v = true ↔ Forall (λ c, p c = true) (bytes v).
Proof.
  induction v as [|c v IH]; simpl.
  - split; [constructor | done].
  - rewrite andb_true_iff, IH, Forall_cons. done.
Qed.

Lemma run_take p l : Forall (λ c, p c = true) (take (run p l) l).
Proof.
  induction l as [|c l IH]; simpl; [constructor|].
  destruct (p c) eqn:Hc; simpl; [by constructor | constructor].
Qed.

(** Every byte of a token, the pending ones apart, is one the splitter
    reacts to. *)
Lemma token_classified c rest :
  classified c = true →
  Forall (λ d, classified d = true) (take (tokenLen c rest) (c :: rest)).
Proof.
  intros Hc.
  assert (∀ p n, (∀ d, p d = true → classified d = true) →
                 (n ≤ S (run p rest))%nat →
                 Forall (λ d, classified d = true) (take n (c :: rest)))
    as Hrun.
  { intros p [|n] Hp Hn; simpl; constructor; [done|].
    apply (Forall_impl (λ d, p d = true)); [|done].
    replace n with (min n (run p rest)) by lia.
    rewrite <- take_take. apply Forall_take, run_take. }
  assert (∀ d, IsNumber d = true → classified d = true) as HN
    by (intros d Hd; unfold classified; by rewrite Hd).
  assert (∀ d, IsUpper d = true → classified d = true) as HU
    by (intros d Hd; unfold classified; by rewrite Hd, !orb_true_r).
  assert (∀ d, IsLower d = true → classified d = true) as HL
    by (intros d Hd; unfold classified; by rewrite Hd, !orb_true_r).
  assert (∀ d, IsSpace d = true → classified d = true) as HS
    by (intros d Hd; unfold classified; by rewrite Hd, !orb_true_r).
  unfold tokenLen.
  destruct (IsNumber c); [by apply (Hrun IsNumber)|].
  destruct (IsUpper c || IsLower c); [|by apply (Hrun IsSpace)].
  unfold wordLen. destruct rest as [|next rest']; [by repeat constructor|].
  destruct (IsUpper next); [|by apply (Hrun IsLower)].
  destruct (drop _ _) as [|after ?]; [by apply (Hrun IsUpper)|].
  destruct (IsDigit after); apply (Hrun IsUpper); auto.
Qed.

Lemma tokensFrom_endsOk fuel pending rest :
  Forall (λ w, endsOk (bytes w)) (tokensFrom fuel pending rest).
Proof.
  revert pending rest. induction fuel as [|fuel IH]; intros pending rest;
    [constructor|].
  destruct rest as [|c rest]; [constructor|]. cbn [tokensFrom].
  destruct (classified c) eqn:Hc; [|apply IH].
  constructor; [|apply IH]. rewrite bytes_str.
  pose proof (token_classified c rest Hc) as Hall.
  pose proof (tokenLen_bounds c rest) as Hn.
  destruct (tokenLen c rest) as [|n]; [lia|].
  assert (take (S n) (c :: rest) ≠ []) as Hne by done.
  destruct (take (S n) (c :: rest)) as [|d tok _] using rev_ind; [done|].
  exists d. split; [by rewrite app_assoc, last_snoc|].
  by apply Forall_app in Hall as [_ [Hd _]%Forall_cons].
Qed.

Lemma tokensFrom_partition fuel pending rest :
  (length rest ≤ fuel)%nat →
  Forall (λ c, classified c = false) pending →
  ∃ tail,
    concat (map bytes (tokensFrom fuel pending rest)) ++ tail
    = pending ++ rest
    ∧ Forall (λ c, classified c = false) tail.
Proof.
  revert pending rest.
  induction fuel as [|fuel IH]; intros pending rest Hfuel Hpending.
  { destruct rest; [|simpl in Hfuel; lia].
    exists pending. by rewrite app_nil_r. }
  destruct rest as [|c rest]; [exists pending; by rewrite app_nil_r|].
  cbn [tokensFrom].
  destruct (classified c) eqn:Hc.
  - pose proof (tokenLen_bounds c rest) as Hn.
    set (n := tokenLen c rest) in *.
    destruct (IH [] (drop n (c :: rest))) as (tail & Htail & Hun).
    { rewrite length_drop. simpl in *. lia. }
    { constructor. }
    exists tail. split; [|done].
    cbn [map concat]. rewrite bytes_str, <- !app_assoc, Htail.
    simpl. by rewrite take_drop.
  - destruct (IH (pending ++ [c]) rest) as (tail & Htail & Hun).
    { simpl in Hfuel. lia. }
    { apply Forall_app. by repeat constructor. }
    exists tail. split; [|done]. by rewrite Htail, <- app_assoc.
Qed.

Lemma last_concat_endsOk (ws : list (list ascii)) :
  ws ≠ [] → Forall endsOk ws → endsOk (concat ws).
Proof.
  intros Hne Hall. destruct ws as [|w ws _] using rev_ind; [done|].
  apply Forall_app in Hall as [_ [Hw _]%Forall_cons].
  rewrite concat_app. simpl. rewrite app_nil_r.
  destruct Hw as (c & Hlast & Hc). exists c. split; [|done].
  destruct w as [|d w _] using rev_ind; [done|].
  rewrite last_snoc in Hlast. by rewrite app_assoc, last_snoc.
Qed.

Lemma tokens_end v :
  String.concat "" (tokens v) = ""
  ∨ endsClassified (String.concat "" (tokens v)) = true.
Proof.
  unfold tokens, endsClassified. rewrite bytes_concat.
  pose proof (tokensFrom_endsOk (String.length v) [] (bytes v)) as Hends.
  destruct (tokensFrom _ _ _) as [|w ws]; [by left | right].
  destruct (last_concat_endsOk (map bytes (w :: ws))) as (c & -> & Hc);
    [done | by apply Forall_map | done].
Qed.

(** The tokens of a string are the string without its trailing
    unclassified bytes. *)
Lemma tokens_partition v :
  v ≠ "" →
  ∃ tail,
    String.concat "" (tokens v) +:+ tail = v
    ∧ forallBytes (λ c, negb (classified c)) tail = true
    ∧ (tail = "" ↔ endsClassified v = true).
Proof.
  intros Hne. unfold tokens.
  destruct (tokensFrom_partition (String.length v) [] (bytes v))
    as (tail & Htail & Hun).
  { by rewrite length_bytes. }
  { constructor. }
  pose proof (tokensFrom_endsOk (String.length v) [] (bytes v)) as Hends.
  set (ws := tokensFrom (String.length v) [] (bytes v)) in *.
  simpl in Htail. exists (str tail). split_and!.
  - apply bytes_inj. by rewrite bytes_app, bytes_concat, bytes_str.
  - apply forallBytes_Forall. rewrite bytes_str.
    eapply Forall_impl; [done|]. by intros c ->.
  - unfold endsClassified. rewrite <- Htail. split.
    + intros Hnil. assert (tail = []) as -> by by rewrite <- (bytes_str tail), Hnil.
      rewrite app_nil_r in *.
      destruct (last_concat_endsOk (map bytes ws)) as (c & -> & Hc).
      * intros Hws. apply map_eq_nil in Hws. rewrite Hws in Htail.
        simpl in Htail. apply Hne, bytes_inj. by rewrite <- Htail.
      * by apply Forall_map.
      * done.
    + destruct tail as [|d tail _] using rev_ind; [done|].
      rewrite app_assoc, last_snoc.
      apply Forall_app in Hun as [_ [Hd _]%Forall_cons]. by rewrite Hd.
Qed.
End Lossless.

(** ** The Identifier Splitter *)
Section SplitterClaims.
Import unicode strings camelcase rules.

Lemma Split_words v : Split v = Some (words v).
Proof.
  unfold words. destruct (isValid v) eqn:Hvalid.
  - by apply Split_tokens.
  - by apply Split_invalid.
Qed.

Lemma isValid_nonempty v : isValid v = true → v ≠ "".
Proof. by intros Hvalid ->. Qed.

(** C4, as the claim states it, fails: the identifier [Foo_] is valid, and
    the splitter returns the single token [Foo]. *)
Lemma Split_lossless_counterexample :
  ¬ (∀ v, isValid v = true →
          ∃ ws, Split v = Some ws ∧ String.concat "" ws = v).
Proof.
  intros Hall. destruct (Hall "Foo_" eq_refl) as (ws & Hsplit & Hconcat).
  vm_compute in Hsplit. by simplify_eq.
Qed.

(** C4 (amended): for every valid identifier the splitter returns tokens
    whose concatenation is the identifier without its trailing bytes that
    are neither a number, a letter nor white space (what is left out holds
    only such bytes, and what is kept is empty or ends with a number, a
    letter or white space); the concatenation is the identifier exactly
    when its last byte is a number, a letter or white space. *)
Theorem Split_lossless v :
  isValid v = true →
  ∃ ws tail,
    Split v = Some ws
    ∧ String.concat "" ws +:+ tail = v
    ∧ forallBytes (λ c, negb (classified c)) tail = true
    ∧ (String.concat "" ws = ""
       ∨ endsClassified (String.concat "" ws) = true)
    ∧ (String.concat "" ws = v ↔ endsClassified v = true).
Proof.
  intros Hvalid.
  destruct (tokens_partition v (isValid_nonempty v Hvalid))
    as (tail & Hcat & Hun & Hiff).
  exists (tokens v), tail.
  split_and!; [by apply Split_tokens | done.. | apply tokens_end |].
  rewrite <- Hiff. split.
  - intros Heq. rewrite <- Heq in Hcat at 2.
    apply (f_equal bytes) in Hcat. rewrite bytes_app in Hcat.
    apply bytes_inj. simpl.
    rewrite <- (app_nil_r (bytes (String.concat "" (tokens v)))) in Hcat at 2.
    by apply app_inv_head in Hcat.
  - intros ->. rewrite <- Hcat at 2. apply bytes_inj.
    by rewrite bytes_app, app_nil_r.
Qed.

Lemma Split_lossless_witness :
  isValid "GL11Version" = true
  ∧ ∃ ws tail,
      Split "GL11Version" = Some ws
      ∧ String.concat "" ws +:+ tail = "GL11Version"
      ∧ forallBytes (λ c, negb (classified c)) tail = true
      ∧ (String.concat "" ws = ""
         ∨ endsClassified (String.concat "" ws) = true)
      ∧ (String.concat "" ws = "GL11Version"
         ↔ endsClassified "GL11Version" = true).
Proof.
  split; [reflexivity | apply (Split_lossless "GL11Version"); reflexivity].
Defined.

(** C5, as the claim states it, fails: in [aB] no two uppercase letters
    follow one another, so the rules of the claim make [a] and [B] two
    tokens; the code looks only at the byte after the letter and returns
    the single token [aB]. *)
Lemma Split_rules_counterexample :
  ¬ (∀ v, isValid v = true → Split v = Some (tokensSpec v)).
Proof.
  intros Hall. specialize (Hall "aB" eq_refl).
  vm_compute in Hall. discriminate Hall.
Qed.

(** C5 (amended): the splitter tokenizes every valid identifier by these
    rules, in this order, at each byte that starts a token: a number starts
    a token that takes the numbers after it; a letter whose next byte is an
    uppercase letter starts a token that takes the uppercase letters after
    it, all of them when they reach the end of the input or a decimal digit
    follows them, all but the last one otherwise; any other letter starts a
    token that takes the lowercase letters after it; a white space starts a
    token that takes the white space after it; any other byte is put in
    front of the next token.  In particular [MyID], [HTML], [GL11Version]
    and [Two  spaces] split as the claim says. *)
Theorem Split_rules :
  (∀ v, isValid v = true → Split v = Some (tokens v))
  ∧ Split "MyID" = Some ["My"; "ID"]
  ∧ Split "HTML" = Some ["HTML"]
  ∧ Split "GL11Version" = Some ["GL"; "11"; "Version"]
  ∧ Split "Two  spaces" = Some ["Two"; "  "; "spaces"].
Proof. split; [apply Split_tokens | by split_and!]. Qed.

Lemma Split_rules_witness :
  isValid "EasyXMLParser" = true
  ∧ Split "EasyXMLParser" = Some (tokens "EasyXMLParser")
  ∧ tokens "EasyXMLParser" = ["Easy"; "XML"; "Parser"].
Proof.
  split_and!; [reflexivity | | reflexivity].
  apply (proj1 Split_rules "EasyXMLParser"). reflexivity.
Defined.

(** C7: the splitter never fails; it returns the one-element sequence of
    the empty string on the empty string, and the one-element sequence of
    its input on an input that is not valid UTF-8. *)
Theorem Split_failsoft v :
  is_Some (Split v)
  ∧ Split "" = Some [""]
  ∧ (utf8.ValidString v = false → Split v = Some [v]).
Proof.
  split_and!; [apply Split_total | done |].
  intros Hinvalid. apply Split_invalid. unfold isValid. by rewrite Hinvalid.
Qed.

Lemma Split_failsoft_witness :
  utf8.ValidString badUTF8 = false ∧ Split badUTF8 = Some [badUTF8].
Proof.
  split; [reflexivity | apply (proj2 (proj2 (Split_failsoft badUTF8))); reflexivity].
Defined.
End SplitterClaims.

(** ** The Phrase Composer *)
Section Composer.
Import strings gosentence.
Context `{CaseMapping}.

Lemma slicesContains_elem_of (s : list string) (v : string) :
  slicesContains s v = true ↔ v ∈ s.
Proof.
  unfold slicesContains. rewrite existsb_exists. split.
  - intros (w & Hin & Heq). apply String.eqb_eq in Heq as ->.
    by apply list_elem_of_In.
  - intros Hin. exists v. split; [by apply list_elem_of_In|].
    apply String.eqb_refl.
Qed.

(** After the first word the loop maps the rest. *)
Lemma transformLoop_rest noTransform idx v retVal :
  0 < idx →
  transformLoop noTransform idx v retVal
  = retVal ++ map (λ word, if decide (word ∈ noTransform) then word
                           else ToLower word) v.
Proof.
  revert idx retVal. induction v as [|word v IH]; intros idx retVal Hidx;
    simpl; [by rewrite app_nil_r|].
  destruct (Z.eqb_spec idx 0); [lia|]. rewrite IH by lia.
  destruct (slicesContains noTransform word) eqn:Hin.
  - apply slicesContains_elem_of in Hin.
    rewrite decide_True by done. by rewrite <- app_assoc.
  - rewrite decide_False; [by rewrite <- app_assoc|].
    intros Hin'%slicesContains_elem_of. congruence.
Qed.

(** C9: the composer joins the words by single spaces, the first word
    verbatim, each later word verbatim when it is in the exception set and
    lower-cased otherwise; the empty sequence gives the empty phrase. *)
Theorem Transform_phrase :
  (∀ v noTransform, Transform v noTransform = phrase v noTransform)
  ∧ (∀ noTransform, Transform [] noTransform = "")
  ∧ Transform ["A"; "Collection"; "Of"; "Words"] [] = "A collection of words"
  ∧ Transform ["An"; "HTTP"; "&"; "SqlQuery"] ["HTTP"; "SqlQuery"]
    = "An HTTP & SqlQuery".
Proof.
  split_and!; [|done..].
  intros v noTransform. unfold Transform, phrase, Join.
  destruct v as [|first others]; [done|]. simpl.
  by rewrite transformLoop_rest.
Qed.
End Composer.

(** ** The string library *)
Section Strings.
Import strings.
Implicit Types (s : string) (c : ascii).

Lemma prefix_byte c a s : String.prefix (String c "") (String a s) = Ascii.eqb a c.
Proof.
  simpl. destruct (ascii_dec c a) as [->|Hne].
  - rewrite Ascii.eqb_refl. by destruct s.
  - symmetry. apply Ascii.eqb_neq. congruence.
Qed.

Lemma Contains_empty s : Contains s "" = true.
Proof. unfold Contains. by destruct s. Qed.

Lemma Contains_byte s c : Contains s (String c "") = ContainsRune s c.
Proof.
  unfold Contains. induction s as [|a s IH]; [done|].
  cbn [String.index ContainsRune]. rewrite prefix_byte.
  destruct (Ascii.eqb a c); [done|]. simpl.
  rewrite <- IH. by destruct (String.index 0 (String c "") s).
Qed.

Lemma LastIndex_byte_range s c :
  -1 ≤ LastIndex s (String c "") < len s
  ∧ (0 ≤ LastIndex s (String c "") ↔ ContainsRune s c = true).
Proof.
  induction s as [|a s [IHr IHc]].
  { unfold len. simpl. split; [lia|]. split; [lia | done]. }
  cbn [LastIndex ContainsRune]. rewrite prefix_byte.
  unfold len in *. cbn [String.length].
  destruct (Z.leb_spec 0 (LastIndex s (String c ""))) as [Hr|Hr].
  - split; [lia|]. split; [|lia]. intros _. apply orb_true_iff. right.
    by apply IHc.
  - assert (ContainsRune s c = false) as ->.
    { destruct (ContainsRune s c); [|done]. lia. }
    rewrite orb_false_r. destruct (Ascii.eqb a c); split; try lia; split;
      try done; lia.
Qed.

Lemma substr_to_end s (lo : Z) :
  0 ≤ lo ≤ len s → substr s lo (len s) = Some (str (drop (Z.to_nat lo) (bytes s))).
Proof.
  intros Hlo. rewrite substr_cut by lia. do 2 f_equal.
  apply take_ge. rewrite length_drop, len_bytes. lia.
Qed.

Lemma substr_from_start s (hi : Z) :
  0 ≤ hi ≤ len s → substr s 0 hi = Some (str (take (Z.to_nat hi) (bytes s))).
Proof.
  intros Hhi. rewrite substr_cut by lia.
  by replace (hi - 0) with hi by lia.
Qed.

Lemma afterLast_drop s c :
  bytes (afterLast c s)
  = drop (Z.to_nat (LastIndex s (String c "") + 1)) (bytes s).
Proof.
  induction s as [|a s IH]; [done|].
  cbn [LastIndex afterLast]. rewrite prefix_byte.
  destruct (LastIndex_byte_range s c) as [Hr Hc].
  destruct (Z.leb_spec 0 (LastIndex s (String c ""))) as [Hge|Hlt].
  - rewrite (proj1 Hc Hge), IH.
    replace (Z.to_nat (LastIndex s (String c "") + 1 + 1))
      with (S (Z.to_nat (LastIndex s (String c "") + 1))) by lia.
    done.
  - assert (ContainsRune s c = false) as ->.
    { destruct (ContainsRune s c); [|done]. lia. }
    by destruct (Ascii.eqb a c).
Qed.

Lemma beforeLast_take s c :
  ContainsRune s c = true →
  bytes (beforeLast c s) = take (Z.to_nat (LastIndex s (String c ""))) (bytes s).
Proof.
  induction s as [|a s IH]; [done|]. intros Hin.
  cbn [LastIndex beforeLast]. rewrite prefix_byte.
  destruct (LastIndex_byte_range s c) as [Hr Hc].
  destruct (Z.leb_spec 0 (LastIndex s (String c ""))) as [Hge|Hlt].
  - rewrite (proj1 Hc Hge). simpl. rewrite IH by by apply Hc.
    replace (Z.to_nat (LastIndex s (String c "") + 1))
      with (S (Z.to_nat (LastIndex s (String c "")))) by lia.
    done.
  - assert (ContainsRune s c = false) as Hs.
    { destruct (ContainsRune s c); [|done]. lia. }
    rewrite Hs. simpl in Hin. rewrite Hs, orb_false_r in Hin.
    by rewrite Hin.
Qed.

(** [s[LastIndex(s, c)+1:]] and [s[:LastIndex(s, c)]]. *)
Lemma substr_afterLast s c :
  substr s (LastIndex s (String c "") + 1) (len s) = Some (afterLast c s).
Proof.
  destruct (LastIndex_byte_range s c) as [Hr _].
  rewrite substr_to_end by lia. f_equal. apply bytes_inj.
  by rewrite bytes_str, afterLast_drop.
Qed.

Lemma substr_beforeLast s c :
  ContainsRune s c = true →
  substr s 0 (LastIndex s (String c "")) = Some (beforeLast c s).
Proof.
  intros Hin. destruct (LastIndex_byte_range s c) as [Hr Hc].
  rewrite substr_from_start by (apply Hc in Hin; lia). f_equal.
  apply bytes_inj. by rewrite bytes_str, beforeLast_take.
Qed.

Lemma strings_Split_cons s c : ∃ w ws, Split s c = w :: ws.
Proof.
  induction s as [|a s (w & ws & IH)]; simpl; [by eauto|].
  rewrite IH. destruct (Ascii.eqb a c); eauto.
Qed.

Lemma strings_Split_head s c : index (Split s c) 0 = Some (beforeFirst c s).
Proof.
  induction s as [|a s IH]; [done|]. simpl.
  destruct (strings_Split_cons s c) as (w & ws & Hs). rewrite Hs in *.
  destruct (Ascii.eqb a c); [done|]. unfold index in *. simpl in *.
  by simplify_eq.
Qed.

(** A string that holds the separator splits into two segments at
    least. *)
Lemma strings_Split_two s c :
  ContainsRune s c = true →
  ∃ first interior last, Split s c = first :: interior ++ [last].
Proof.
  induction s as [|a s IH]; [done|]. simpl.
  destruct (strings_Split_cons s c) as (w & ws & Hs). rewrite Hs.
  destruct (Ascii.eqb a c) eqn:Ha.
  - intros _. destruct ws as [|x ws _] using rev_ind.
    + by exists "", [], w.
    + exists "", (w :: ws), x. done.
  - simpl. intros Hin. destruct (IH Hin) as (f & i & l & Hf).
    rewrite Hs in Hf. simplify_eq. by exists (String a f), i, l.
Qed.
End Strings.

(** ** Names and structural paths *)
Section NameLemmas.
Import strings xunit.
Context `{CaseMapping}.

Lemma humanize_label p : humanize p = Some (label p).
Proof. unfold humanize, label. by rewrite Split_words. Qed.

Lemma mapM_humanize (ps : list string) :
  mapM humanize ps = Some (map label ps).
Proof.
  induction ps as [|p ps IH]; [done|]. simpl.
  by rewrite humanize_label, IH.
Qed.

Lemma friendlyName_display t :
  hasDisplayName t = true → friendlyName t = Some (test_Name t).
Proof. intros Hd. unfold friendlyName. by rewrite Hd. Qed.

Lemma friendlyName_humanized t :
  hasDisplayName t = false →
  friendlyName t = Some (label (methodName (test_Name t))).
Proof.
  intros Hd. unfold friendlyName, methodName. rewrite Hd.
  rewrite substr_afterLast. simpl.
  destruct (ContainsRune (afterLast "." (test_Name t)) "(") eqn:Hparen.
  - rewrite substr_beforeLast by done. simpl. apply humanize_label.
  - simpl. apply humanize_label.
Qed.

Lemma groups_flat t : isNested t = false → groups t = Some make.
Proof. intros Hn. unfold groups. by rewrite Hn. Qed.

Lemma groups_nested t :
  isNested t = true →
  ∃ first interior last,
    Split (test_Name t) "+" = first :: interior ++ [last]
    ∧ groups t
      = Some (mk_slice (map label (afterLast "." first
                                   :: interior ++ [beforeFirst "." last]))).
Proof.
  intros Hn. unfold groups. rewrite Hn. cbn [negb].
  unfold isNested in Hn. apply andb_true_iff in Hn as [_ Hplus].
  rewrite Contains_byte in Hplus.
  destruct (strings_Split_two _ _ Hplus) as (first & interior & last & Hsplit).
  exists first, interior, last. split; [done|]. rewrite Hsplit.
  change (index (first :: interior ++ [last]) 0) with (Some first).
  cbn [mbind option_bind]. rewrite substr_afterLast. cbn [mbind option_bind].
  assert (subslice (first :: interior ++ [last]) 1
            (Z.of_nat (length (first :: interior ++ [last])) - 1)
          = Some interior) as ->.
  { unfold subslice. cbn [length]. rewrite length_app. cbn [length].
    destruct (Z.leb_spec 1 (Z.of_nat (S (length interior + 1)) - 1)); [|lia].
    destruct (Z.leb_spec (Z.of_nat (S (length interior + 1)) - 1)
                (Z.of_nat (S (length interior + 1)))); [|lia].
    cbn [andb Z.leb]. simpl. f_equal.
    replace (Z.to_nat (Z.of_nat (S (length interior + 1)) - 1 - 1))
      with (length interior) by lia.
    by rewrite drop_0, take_app_length. }
  cbn [mbind option_bind].
  assert (index (first :: interior ++ [last])
            (Z.of_nat (length (first :: interior ++ [last])) - 1)
          = Some last) as ->.
  { unfold index. cbn [length]. rewrite length_app. cbn [length].
    destruct (Z.leb_spec 0 (Z.of_nat (S (length interior + 1)) - 1)); [|lia].
    replace (Z.to_nat (Z.of_nat (S (length interior + 1)) - 1))
      with (S (length interior)) by lia.
    simpl. by apply list_lookup_middle. }
  cbn [mbind option_bind]. rewrite strings_Split_head. cbn [mbind option_bind].
  by rewrite mapM_humanize.
Qed.

Lemma friendlyName_total t : is_Some (friendlyName t).
Proof.
  destruct (hasDisplayName t) eqn:Hd.
  - rewrite friendlyName_display by done. eauto.
  - rewrite friendlyName_humanized by done. eauto.
Qed.

Lemma groups_total t : is_Some (groups t).
Proof.
  destruct (isNested t) eqn:Hn.
  - destruct (groups_nested t Hn) as (? & ? & ? & _ & ->). eauto.
  - rewrite groups_flat by done. eauto.
Qed.
End NameLemmas.

Section NameClaims.
Import strings xunit.

(** C1: the code does not do what the claim, and the comment on
    [hasDisplayName], say.  The name of [calculatorTest] holds spaces and
    its type; the test counts as one without a display name and its name
    is humanized.  The name of [sumTest] holds spaces and a ['+']; the
    test counts as nested. *)
Theorem hasDisplayName_ignores_spaces `{CaseMapping} :
  ContainsRune (test_Name calculatorTest) " " = true
  ∧ hasDisplayName calculatorTest = false
  ∧ friendlyName calculatorTest = Some "Calculator   adds   two   numbers"
  ∧ ContainsRune (test_Name sumTest) " " = true
  ∧ hasDisplayName sumTest = false
  ∧ isNested sumTest = true.
Proof. by split_and!. Qed.

(** C2, as the claim states it, fails: the last segment of [theoryTest] is
    [Inner.Method(x: 1.5)]; the code takes what is before its first ['.'],
    [Inner], not what is before its final one. *)
Lemma groups_nested_counterexample :
  ¬ (∃ H : CaseMapping, ∀ t,
       isNested t = true →
       ∃ first interior last,
         Split (test_Name t) "+" = first :: interior ++ [last]
         ∧ groups t
           = Some (mk_slice (map label (afterLast "." first
                                        :: interior ++ [beforeLast "." last])))).
Proof.
  intros (H & Hall).
  destruct (Hall theoryTest eq_refl) as (first & interior & last & Hs & Hg).
  vm_compute in Hs.
  destruct interior as [|x [|y interior]]; try discriminate Hs.
  injection Hs as <- <-. vm_compute in Hg. discriminate Hg.
Qed.

(** C2 (amended): the structural path of a nested test is derived by
    splitting its name on ['+'], taking what is after the final ['.'] of
    the first segment, every interior segment, and what is before the
    first ['.'] of the last segment, each humanized by the splitter and the
    composer; the test of the repository's test is nested, its path is
    [Test class], [Method], [Scenario], [Sub scenario] and its name
    [Result]. *)
Theorem groups_nested_path `{CaseMapping} :
  (∀ t, isNested t = true →
        ∃ first interior last,
          Split (test_Name t) "+" = first :: interior ++ [last]
          ∧ groups t
            = Some (mk_slice (map label (afterLast "." first
                                         :: interior ++ [beforeFirst "." last]))))
  ∧ isNested scenarioTest = true
  ∧ groups scenarioTest
    = Some (mk_slice ["Test class"; "Method"; "Scenario"; "Sub scenario"])
  ∧ friendlyName scenarioTest = Some "Result".
Proof. split_and!; [apply groups_nested | done..]. Qed.

Lemma groups_nested_path_witness :
  isNested theoryTest = true
  ∧ ∃ first interior last,
      Split (test_Name theoryTest) "+" = first :: interior ++ [last]
      ∧ @groups asciiCase theoryTest
        = Some (mk_slice (map (@label asciiCase)
                            (afterLast "." first
                             :: interior ++ [beforeFirst "." last]))).
Proof.
  split; [reflexivity|].
  apply (proj1 (@groups_nested_path asciiCase) theoryTest). reflexivity.
Defined.

(** C10: a test whose type is the empty string never has a display name:
    its name is humanized, and it is nested whenever its name holds a
    ['+']. *)
Theorem empty_type_no_display_name `{CaseMapping} (t : test) :
  test_Type t = "" →
  hasDisplayName t = false
  ∧ friendlyName t = Some (label (methodName (test_Name t)))
  ∧ isNested t = Contains (test_Name t) "+".
Proof.
  intros Htype.
  assert (hasDisplayName t = false) as Hd.
  { unfold hasDisplayName. by rewrite Htype, Contains_empty. }
  split_and!; [done | by apply friendlyName_humanized |].
  unfold isNested. by rewrite Hd.
Qed.

Lemma empty_type_no_display_name_witness :
  test_Type sumTest = ""
  ∧ hasDisplayName sumTest = false
  ∧ @friendlyName asciiCase sumTest
    = Some (@label asciiCase (methodName (test_Name sumTest)))
  ∧ isNested sumTest = Contains (test_Name sumTest) "+".
Proof.
  split; [reflexivity|].
  apply (@empty_type_no_display_name asciiCase sumTest). reflexivity.
Defined.
End NameClaims.

(** ** The index of an assembly *)
Section Index.
Import strings xunit.
Context `{CaseMapping}.
Implicit Types (m : gmap string (list TestCase)) (t : test) (key : string).

Lemma map_fmap {A B} (f : A → B) (l : list A) : map f l = f <$> l.
Proof. reflexivity. Qed.

Lemma forEach_foldl {A S} (body : S → A → option S) (f : S → A → S) l s :
  (∀ s x, body s x = Some (f s x)) → forEach body l s = Some (foldl f s l).
Proof.
  intros Hbody. revert s. induction l as [|x l IH]; intros s; [done|].
  simpl. rewrite Hbody. simpl. apply IH.
Qed.

Lemma foldl_concat {A S} (f : S → A → S) (ls : list (list A)) s :
  foldl (λ s l, foldl f s l) s ls = foldl f s (concat ls).
Proof.
  revert s. induction ls as [|l ls IH]; intros s; [done|].
  simpl. by rewrite foldl_app, IH.
Qed.

Lemma friendlyName_displayName t : friendlyName t = Some (displayName t).
Proof.
  unfold displayName. destruct (hasDisplayName t) eqn:Hd.
  - by apply friendlyName_display.
  - by apply friendlyName_humanized.
Qed.

Lemma groups_pathOf t : groups t = Some (pathOf t).
Proof.
  unfold pathOf. destruct (isNested t) eqn:Hn.
  - destruct (groups_nested t Hn) as (first & interior & final & -> & ->).
    by rewrite last_snoc, removelast_last.
  - by apply groups_flat.
Qed.

(** Indexing a test adds its case to each of its buckets. *)
Lemma indexTest_addKeys m t : indexTest m t = Some (addKeys t m).
Proof.
  unfold indexTest, addKeys, keysOf.
  rewrite friendlyName_displayName, groups_pathOf. simpl. f_equal.
  fold (caseOf t). destruct (Traits (TraitSet t)) as [|tr trs]; [done|].
  change (Z.of_nat (length (tr :: trs)) =? 0) with false. cbv iota.
  change (trait_friendlyName tr :: map trait_friendlyName trs)
    with (trait_friendlyName <$> tr :: trs).
  by rewrite foldl_fmap.
Qed.

Lemma uniqueTraits_index a :
  uniqueTraits a
  = Some (maps.SortedKeys (foldl (λ m t, addKeys t m) ∅ (allTests a)),
          foldl (λ m t, addKeys t m) ∅ (allTests a)).
Proof.
  unfold uniqueTraits, allTests.
  rewrite (forEach_foldl _ (λ m c, foldl (λ m t, addKeys t m) m (Tests c))).
  - simpl. by rewrite <- foldl_concat, map_fmap, foldl_fmap.
  - intros m c. apply forEach_foldl. intros; apply indexTest_addKeys.
Qed.

Lemma bucket_addCase m key key' tc :
  bucket (addCase m key' tc) key
  = bucket m key ++ (if decide (key' = key) then [tc] else []).
Proof.
  unfold addCase, bucket. destruct (decide (key' = key)) as [->|Hne].
  - by rewrite lookup_insert_eq.
  - by rewrite lookup_insert_ne, app_nil_r.
Qed.

Lemma bucket_addKeys m t key :
  bucket (addKeys t m) key
  = bucket m key ++ replicate (copies key t) (caseOf t).
Proof.
  unfold addKeys, copies. generalize (keysOf t) as keys. intros keys.
  revert m. induction keys as [|k keys IH]; intros m; simpl.
  { by rewrite app_nil_r. }
  rewrite IH, bucket_addCase, filter_cons.
  destruct (decide (k = key)); simpl.
  - by rewrite <- app_assoc.
  - by rewrite app_nil_r.
Qed.

Lemma bucket_index m ts key :
  bucket (foldl (λ m t, addKeys t m) m ts) key
  = bucket m key ++ bucketOf key ts.
Proof.
  revert m. induction ts as [|t ts IH]; intros m; simpl.
  { by rewrite app_nil_r. }
  rewrite IH, bucket_addKeys. unfold bucketOf. simpl.
  by rewrite <- app_assoc.
Qed.

Lemma dom_addCase m key tc key' :
  is_Some (addCase m key tc !! key') ↔ key' = key ∨ is_Some (m !! key').
Proof.
  unfold addCase. destruct (decide (key = key')) as [->|Hne].
  - rewrite lookup_insert_eq. split; eauto.
  - rewrite lookup_insert_ne by done. split; [eauto|]. by intros [->|].
Qed.

Lemma dom_addKeys m t key :
  is_Some (addKeys t m !! key) ↔ key ∈ keysOf t ∨ is_Some (m !! key).
Proof.
  unfold addKeys. generalize (keysOf t) as keys. intros keys.
  revert m. induction keys as [|k keys IH]; intros m; simpl.
  { split; [eauto|]. intros [Hin|]; [|done]. by apply elem_of_nil in Hin. }
  rewrite IH, dom_addCase, elem_of_cons. tauto.
Qed.

Lemma dom_index m ts key :
  is_Some (foldl (λ m t, addKeys t m) m ts !! key)
  ↔ (∃ t, t ∈ ts ∧ key ∈ keysOf t) ∨ is_Some (m !! key).
Proof.
  revert m. induction ts as [|t ts IH]; intros m; simpl.
  { split; [eauto|]. intros [(t & Hin & _)|]; [|done].
    by apply elem_of_nil in Hin. }
  rewrite IH, dom_addKeys. setoid_rewrite elem_of_cons.
  split; [intros [(t0 & ? & ?)|[?|?]] | intros [(t0 & [->|?] & ?)|?]];
    eauto 6.
Qed.

(** The sorted keys. *)
Lemma SortedKeys_elem_of {V} (m : gmap string V) key :
  key ∈ maps.SortedKeys m ↔ is_Some (m !! key).
Proof.
  unfold maps.SortedKeys. rewrite merge_sort_Permutation, map_fmap.
  rewrite list_elem_of_fmap. split.
  - intros ([k v] & -> & Hin). apply elem_of_map_to_list in Hin. eauto.
  - intros [v Hv]. exists (key, v). split; [done|].
    by apply elem_of_map_to_list.
Qed.

Lemma SortedKeys_NoDup {V} (m : gmap string V) : NoDup (maps.SortedKeys m).
Proof.
  unfold maps.SortedKeys. rewrite merge_sort_Permutation, map_fmap.
  apply NoDup_fst_map_to_list.
Qed.

Lemma SortedKeys_sorted {V} (m : gmap string V) :
  StronglySorted String.le (maps.SortedKeys m).
Proof. apply StronglySorted_merge_sort; apply _. Qed.
End Index.

(** ** The group trees *)
Section Trees.
Import strings xunit.
Context `{CaseMapping}.
Implicit Types (g : TestGroup) (tc : TestCase) (names : list string).

Lemma allCases_unfold g :
  allCases g
  = elems (TestGroup_Tests g)
    ++ concat (map allCases (elems (TestGroup_Groups g))).
Proof.
  destruct g as [name tests [|gs]]; simpl; [done|]. f_equal.
  induction gs as [|g gs IH]; [done|]. simpl. by rewrite IH.
Qed.

Lemma allCases_addTest g tc :
  allCases (addTest g tc) ≡ₚ allCases g ++ [reportCase tc].
Proof.
  rewrite !allCases_unfold. simpl. rewrite <- !app_assoc.
  apply Permutation_app_head, Permutation_app_comm.
Qed.

Lemma allCases_alter (visit : TestGroup → TestGroup) tc
    (gs : list TestGroup) i x :
  (∀ s, allCases (visit s) ≡ₚ allCases s ++ [reportCase tc]) →
  gs !! i = Some x →
  concat (map allCases (alter visit i gs))
  ≡ₚ concat (map allCases gs) ++ [reportCase tc].
Proof.
  intros Hvisit. revert i. induction gs as [|g gs IH]; intros [|i] Hx;
    simplify_eq/=.
  - rewrite Hvisit, <- !app_assoc. apply Permutation_app_head.
    apply Permutation_app_comm.
  - by rewrite IH, <- app_assoc.
Qed.

(** Walking the path of a test case adds the case, once, somewhere
    below the cursor. *)
Lemma allCases_walk tc names g :
  names ≠ [] → allCases (walk tc names g) ≡ₚ allCases g ++ [reportCase tc].
Proof.
  revert g. induction names as [|nn rest IH]; intros g Hne; [done|].
  set (visit := λ sGroup : TestGroup,
         walk tc rest
           match rest with [] => addTest sGroup tc | _ => sGroup end).
  assert (∀ s, allCases (visit s) ≡ₚ allCases s ++ [reportCase tc]) as Hvisit.
  { intros s. unfold visit. destruct rest as [|r rest'].
    - apply allCases_addTest.
    - by apply IH. }
  change (walk tc (nn :: rest) g)
    with (match list_find (λ g', TestGroup_Name g' = nn)
                  (elems (TestGroup_Groups g)) with
          | Some (i, _) =>
              setGroups g (mk_slice (alter visit i (elems (TestGroup_Groups g))))
          | None =>
              setGroups g
                (append (TestGroup_Groups g)
                   (visit (Build_TestGroup nn nil_slice nil_slice)))
          end).
  destruct (list_find _ _) as [[i x]|] eqn:Hfind.
  - apply list_find_Some in Hfind as (Hx & _ & _).
    rewrite (allCases_unfold (setGroups _ _)), (allCases_unfold g).
    cbn [setGroups elems TestGroup_Tests TestGroup_Groups].
    by rewrite (allCases_alter visit tc _ _ _ Hvisit Hx), <- app_assoc.
  - rewrite (allCases_unfold (setGroups _ _)), (allCases_unfold g).
    cbn [setGroups append elems TestGroup_Tests TestGroup_Groups].
    rewrite map_app, concat_app. cbn [map concat].
    rewrite Hvisit, app_nil_r. cbn [allCases elems app].
    by rewrite <- app_assoc.
Qed.

Lemma allCases_placeCase g tc :
  allCases (placeCase g tc) ≡ₚ allCases g ++ [reportCase tc].
Proof.
  unfold placeCase. destruct (elems (TestCase_groups tc)) as [|nn rest].
  - apply allCases_addTest.
  - by apply allCases_walk.
Qed.

Lemma allCases_foldl g (tcs : list TestCase) :
  allCases (foldl placeCase g tcs) ≡ₚ allCases g ++ map reportCase tcs.
Proof.
  revert g. induction tcs as [|tc tcs IH]; intros g; simpl.
  - by rewrite app_nil_r.
  - by rewrite IH, allCases_placeCase, <- app_assoc.
Qed.

Lemma Name_walk tc names g :
  TestGroup_Name (walk tc names g) = TestGroup_Name g.
Proof.
  destruct names as [|nn rest]; [done|]. cbn [walk].
  by destruct (list_find _ _) as [[i x]|].
Qed.

Lemma Name_placeCase g tc :
  TestGroup_Name (placeCase g tc) = TestGroup_Name g.
Proof.
  unfold placeCase. destruct (_ =? _); [done | apply Name_walk].
Qed.

Lemma Name_foldl g (tcs : list TestCase) :
  TestGroup_Name (foldl placeCase g tcs) = TestGroup_Name g.
Proof.
  revert g. induction tcs as [|tc tcs IH]; intros g; [done|]. simpl.
  by rewrite IH, Name_placeCase.
Qed.

Lemma foldl_append {A B} (f : A → B) (l : list A) (acc : list B) :
  foldl (λ resultSet x, append resultSet (f x)) (mk_slice acc) l
  = mk_slice (acc ++ map f l).
Proof.
  revert acc. induction l as [|x l IH]; intros acc; simpl.
  - by rewrite app_nil_r.
  - unfold append at 2. simpl. by rewrite IH, <- app_assoc.
Qed.

Lemma hasTests_allTests a : hasTests a = true ↔ allTests a ≠ [].
Proof.
  unfold hasTests, allTests. induction (Collections a) as [|c cs IH]; simpl.
  - split; done.
  - rewrite orb_true_iff, IH. destruct (Tests c) as [|t ts]; simpl.
    + split; [by intros [|] | by right].
    + split; [done | by left].
Qed.

Lemma groupTests_groupOf a :
  hasTests a = true →
  groupTests a
  = Some (mk_slice
            (map (groupOf (foldl (λ m t, addKeys t m) ∅ (allTests a)))
               (maps.SortedKeys (foldl (λ m t, addKeys t m) ∅ (allTests a))))).
Proof.
  intros Htests. unfold groupTests. rewrite Htests, uniqueTraits_index.
  simpl. f_equal. unfold make. by rewrite foldl_append.
Qed.

Lemma forEach_is_Some {A S} (body : S → A → option S) l s :
  (∀ s x, is_Some (body s x)) → is_Some (forEach body l s).
Proof.
  intros Hbody. revert s. induction l as [|x l IH]; intros s; simpl; [eauto|].
  destruct (Hbody s x) as [s' ->]. simpl. apply IH.
Qed.

(** The report builder never panics. *)
Lemma groupTests_total a : is_Some (groupTests a).
Proof.
  destruct (hasTests a) eqn:Htests.
  - rewrite groupTests_groupOf by done. eauto.
  - unfold groupTests. rewrite Htests. simpl. eauto.
Qed.

Lemma readResult_total r : is_Some (readResult r).
Proof.
  unfold readResult.
  destruct (forEach_is_Some
              (λ acc a,
                 testGroups ← groupTests a;
                 Some (append acc
                   {| Assembly_Name := paths.Name (FullName a);
                      ErrorCount := assembly_ErrorCount a;
                      PassedCount := assembly_PassedCount a;
                      FailedCount := assembly_FailedCount a;
                      NotRunCount := assembly_NotRunCount a;
                      TotalCount := Total a;
                      RunDate := assembly_RunDate a;
                      RunTime := assembly_RunTime a;
                      TimeRTF := assembly_TimeRTF a;
                      Time := assembly_Time a;
                      TestGroups := testGroups |}))
              (result_Assemblies r) make) as [assemblies ->].
  - intros acc a. destruct (groupTests_total a) as [gs ->]. simpl. eauto.
  - simpl. eauto.
Qed.

Lemma le_empty (s : string) : String.le s "" → s = "".
Proof. by destruct s. Qed.

Lemma sorted_empty_first (keys : list string) :
  StronglySorted String.le keys → "" ∈ keys → head keys = Some "".
Proof.
  intros Hsorted Hin. destruct keys as [|k keys]; [by apply elem_of_nil in Hin|].
  simpl. f_equal. apply elem_of_cons in Hin as [->|Hin]; [done|].
  apply StronglySorted_inv in Hsorted as [_ Hall].
  rewrite Forall_forall in Hall. by apply le_empty, Hall.
Qed.
End Trees.

(** ** The Report Builder and the decoder *)
Section BuilderClaims.
Import strings xunit.

Lemma filter_absent (key : string) (keys : list string) :
  key ∉ keys → filter (λ k, k = key) keys = [].
Proof.
  induction keys as [|k keys IH]; intros Hnot; [done|].
  apply not_elem_of_cons in Hnot as [Hne Hnot]. rewrite filter_cons.
  destruct (decide (k = key)) as [->|_]; [done | by apply IH].
Qed.

Lemma copies_NoDup t key :
  NoDup (keysOf t) → key ∈ keysOf t → copies key t = 1%nat.
Proof.
  unfold copies. induction (keysOf t) as [|k keys IH]; intros Hnd Hin.
  { by apply elem_of_nil in Hin. }
  apply NoDup_cons in Hnd as [Hk Hnd]. rewrite filter_cons.
  destruct (decide (k = key)) as [->|Hne]; simpl.
  - by rewrite filter_absent.
  - apply elem_of_cons in Hin as [->|Hin]; [done|]. by apply IH.
Qed.

(** C3, as the claim states it, fails: the two traits of [sameKeyTest]
    render to the same key, and the group of that key holds the test
    twice. *)
Lemma groupTests_once_counterexample :
  ¬ (∃ H : CaseMapping, ∀ a t,
       allTests a = [t] →
       ∃ gs,
         groupTests a = Some (mk_slice gs)
         ∧ ∀ tTrait, tTrait ∈ Traits (TraitSet t) →
             ∃ g, g ∈ gs
                  ∧ TestGroup_Name g = trait_friendlyName tTrait
                  ∧ length (allCases g) = 1%nat).
Proof.
  intros (H & Hall).
  destruct (Hall (assemblyOf [sameKeyTest]) sameKeyTest eq_refl)
    as (gs & Hgs & Hone).
  vm_compute in Hgs. injection Hgs as <-.
  destruct (Hone {| trait_Name := "Size"; trait_Value := "Big - Fast" |})
    as (g & Hin & _ & Hlen).
  { apply elem_of_cons. right. apply elem_of_cons. by left. }
  apply list_elem_of_singleton in Hin as ->. discriminate Hlen.
Qed.

(** C3 (amended): for every assembly with at least one test, each test is
    added to one bucket per trait it carries, rendered as
    "TraitName - TraitValue", and to the bucket of the empty string when it
    carries none; the top-level groups are the buckets, ordered by the
    lexicographic sort of their keys without repetition, the group of the
    empty string first; the group of a key holds, at some depth, the case
    of every test once per trait of the test that renders to the key:
    exactly once when the rendered keys of the test's traits are pairwise
    distinct. *)
Theorem groupTests_by_trait `{CaseMapping} (a : assembly) :
  allTests a ≠ [] →
  ∃ keys testMap gs,
    uniqueTraits a = Some (keys, testMap)
    ∧ groupTests a = Some (mk_slice gs)
    ∧ map TestGroup_Name gs = keys
    ∧ (∀ key, key ∈ keys ↔ ∃ t, t ∈ allTests a ∧ key ∈ keysOf t)
    ∧ (∀ key, bucket testMap key = bucketOf key (allTests a))
    ∧ (∀ g, g ∈ gs →
         allCases g
         ≡ₚ map reportCase (bucketOf (TestGroup_Name g) (allTests a)))
    ∧ (∀ t key, NoDup (keysOf t) → key ∈ keysOf t → copies key t = 1%nat)
    ∧ StronglySorted String.le keys
    ∧ NoDup keys
    ∧ ("" ∈ keys → head keys = Some "").
Proof.
  intros Htests. apply hasTests_allTests in Htests.
  set (testMap := foldl (λ m t, addKeys t m) ∅ (allTests a)).
  exists (maps.SortedKeys testMap), testMap,
    (map (groupOf testMap) (maps.SortedKeys testMap)).
  assert (∀ key, bucket testMap key = bucketOf key (allTests a)) as Hbucket.
  { intros key. unfold testMap. by rewrite bucket_index. }
  split_and!.
  - apply uniqueTraits_index.
  - by apply groupTests_groupOf.
  - rewrite map_map. rewrite <- (map_id (maps.SortedKeys testMap)) at 2.
    apply map_ext. intros key. apply Name_foldl.
  - intros key. rewrite SortedKeys_elem_of. unfold testMap.
    rewrite dom_index, lookup_empty. split; [|by left].
    intros [?|[? ?]]; done.
  - done.
  - intros g Hg. rewrite map_fmap in Hg.
    apply list_elem_of_fmap in Hg as (key & -> & _).
    unfold groupOf. rewrite allCases_foldl, Name_foldl. simpl.
    by rewrite Hbucket.
  - apply copies_NoDup.
  - apply SortedKeys_sorted.
  - apply SortedKeys_NoDup.
  - apply sorted_empty_first, SortedKeys_sorted.
Qed.

Lemma groupTests_by_trait_witness :
  allTests exampleAssembly ≠ []
  ∧ ∃ keys testMap gs,
      @uniqueTraits asciiCase exampleAssembly = Some (keys, testMap)
      ∧ @groupTests asciiCase exampleAssembly = Some (mk_slice gs)
      ∧ map TestGroup_Name gs = keys
      ∧ (∀ key, key ∈ keys
                ↔ ∃ t, t ∈ allTests exampleAssembly ∧ key ∈ keysOf t)
      ∧ (∀ key, bucket testMap key
                = @bucketOf asciiCase key (allTests exampleAssembly))
      ∧ (∀ g, g ∈ gs →
           allCases g
           ≡ₚ map reportCase
                (@bucketOf asciiCase (TestGroup_Name g)
                   (allTests exampleAssembly)))
      ∧ (∀ t key, NoDup (keysOf t) → key ∈ keysOf t → copies key t = 1%nat)
      ∧ StronglySorted String.le keys
      ∧ NoDup keys
      ∧ ("" ∈ keys → head keys = Some "").
Proof.
  split; [discriminate|].
  apply (@groupTests_by_trait asciiCase exampleAssembly). discriminate.
Defined.

Lemma Load_total `{CaseMapping} `{XmlReader} rdr : is_Some (Load rdr).
Proof.
  unfold Load. destruct (unmarshal rdr) as [r [e|]]; [eauto|].
  destruct (readResult_total r) as [run ->]. simpl. eauto.
Qed.

(** C6: on a byte stream that is empty, is not well-formed XML or lacks
    the expected marker, [Load] returns an error and the zero-valued
    [TestRun]; whenever it returns an error, the [TestRun] is the
    zero-valued one. *)
Theorem Load_decode_error `{CaseMapping} `{XmlReader} (rdr : string) :
  (rdr = "" ∨ wellFormed rdr = false ∨ hasMarker rdr = false →
   Load rdr = Some (TestRun_zero, Some DecodeError))
  ∧ (∀ run e, Load rdr = Some (run, Some e) → run = TestRun_zero).
Proof.
  split.
  - intros Hbad. unfold Load, unmarshal.
    destruct Hbad as [->|[Hwf|Hmarker]].
    + done.
    + destruct (String.eqb rdr ""); [done|]. by rewrite Hwf.
    + destruct (String.eqb rdr ""); [done|].
      destruct (wellFormed rdr); [|done]. by rewrite Hmarker.
  - intros run e. unfold Load.
    destruct (unmarshal rdr) as [r [e'|]].
    + intros Hload. by simplify_eq.
    + destruct (readResult r); intros Hload; simplify_eq/=.
Qed.

Lemma Load_decode_error_witness :
  ("{}" = "" ∨ @wellFormed exampleReader "{}" = false
   ∨ @hasMarker exampleReader "{}" = false)
  ∧ @Load asciiCase exampleReader "{}" = Some (TestRun_zero, Some DecodeError).
Proof.
  split; [right; left; reflexivity|].
  apply (proj1 (@Load_decode_error asciiCase exampleReader "{}")).
  right; left; reflexivity.
Defined.

Lemma hasTests_false a :
  Forall (λ c, Tests c = []) (Collections a) → hasTests a = false.
Proof.
  unfold hasTests. induction 1 as [|c cs Hc _ IH]; [done|]. simpl.
  by rewrite Hc, IH.
Qed.

(** C8: a document that decodes to a tree without assemblies, as
    [<assemblies />] does, loads to a [TestRun] whose [Assemblies] is an
    empty sequence and not nil; an assembly without tests in any of its
    collections gets an empty [TestGroup] sequence and not nil. *)
Theorem empty_not_nil `{CaseMapping} `{XmlReader} :
  (∀ rdr,
     rdr ≠ "" → wellFormed rdr = true → hasMarker rdr = true →
     result_Assemblies (decoded rdr) = [] →
     ∃ run, Load rdr = Some (run, None) ∧ Assemblies run = mk_slice [])
  ∧ (∀ a, Forall (λ c, Tests c = []) (Collections a) →
          groupTests a = Some (mk_slice [])).
Proof.
  split.
  - intros rdr Hne Hwf Hmarker Hempty. unfold Load, unmarshal.
    apply String.eqb_neq in Hne. rewrite Hne, Hwf, Hmarker. simpl.
    unfold readResult. rewrite Hempty. simpl. eauto.
  - intros a Hempty. unfold groupTests. by rewrite hasTests_false.
Qed.

Lemma empty_not_nil_witness :
  "<assemblies />" ≠ ""
  ∧ @wellFormed exampleReader "<assemblies />" = true
  ∧ @hasMarker exampleReader "<assemblies />" = true
  ∧ result_Assemblies (@decoded exampleReader "<assemblies />") = []
  ∧ ∃ run, @Load asciiCase exampleReader "<assemblies />" = Some (run, None)
           ∧ Assemblies run = mk_slice [].
Proof.
  split_and!; [discriminate | reflexivity..|].
  apply (proj1 (@empty_not_nil asciiCase exampleReader) "<assemblies />");
    [discriminate | reflexivity..].
Defined.
End BuilderClaims.

(** ** More on the Identifier Splitter *)
Section SplitterExtras.
Import unicode strings camelcase rules.
Implicit Types (v w : string) (l rest pending : list ascii).

Lemma str_nonempty l : l ≠ [] → str l ≠ "".
Proof. intros Hne Hs. apply Hne. by rewrite <- (bytes_str l), Hs. Qed.

Lemma tokensFrom_nonempty fuel pending rest :
  Forall (λ w, w ≠ "") (tokensFrom fuel pending rest).
Proof.
  revert pending rest. induction fuel as [|fuel IH]; intros pending rest;
    [constructor|].
  destruct rest as [|c rest]; [constructor|]. cbn [tokensFrom].
  destruct (classified c); [|apply IH]. constructor; [|apply IH].
  pose proof (tokenLen_bounds c rest) as Hn.
  destruct (tokenLen c rest) as [|n]; [lia|]. apply str_nonempty.
  simpl. by destruct pending.
Qed.

Lemma tokensFrom_length fuel pending rest :
  (length (tokensFrom fuel pending rest) ≤ length rest)%nat.
Proof.
  revert pending rest. induction fuel as [|fuel IH]; intros pending rest;
    [simpl; lia|].
  destruct rest as [|c rest]; [simpl; lia|]. cbn [tokensFrom].
  destruct (classified c).
  - pose proof (tokenLen_bounds c rest) as Hn.
    specialize (IH [] (drop (tokenLen c rest) (c :: rest))).
    rewrite length_drop in IH. simpl in *. lia.
  - specialize (IH (pending ++ [c]) rest). simpl. lia.
Qed.

(** X1: on a non-empty string [Split] returns, and every word it returns
    is non-empty; there are at most as many words as the string has
    bytes. *)
Theorem Split_tokens_nonempty v :
  v ≠ "" →
  ∃ ws,
    Split v = Some ws
    ∧ Forall (λ w, w ≠ "") ws
    ∧ (length ws ≤ String.length v)%nat.
Proof.
  intros Hne. exists (words v). split; [apply Split_words|]. unfold words.
  destruct (isValid v) eqn:Hvalid.
  - split; [apply tokensFrom_nonempty|].
    unfold tokens. pose proof (tokensFrom_length (String.length v) [] (bytes v)).
    by rewrite length_bytes in *.
  - split; [by repeat constructor|]. destruct v; [done | simpl; lia].
Qed.

Lemma Split_tokens_nonempty_witness :
  "MyID" ≠ ""
  ∧ ∃ ws,
      Split "MyID" = Some ws
      ∧ Forall (λ w, w ≠ "") ws
      ∧ (length ws ≤ String.length "MyID")%nat.
Proof. split; [discriminate | apply (Split_tokens_nonempty "MyID"); discriminate]. Defined.

Lemma tokensFrom_nil fuel pending rest :
  (length rest ≤ fuel)%nat →
  tokensFrom fuel pending rest = []
  ↔ Forall (λ c, classified c = false) rest.
Proof.
  revert pending rest. induction fuel as [|fuel IH]; intros pending rest Hfuel.
  { destruct rest; [|simpl in Hfuel; lia]. split; [constructor | done]. }
  destruct rest as [|c rest]; [split; [constructor | done]|].
  cbn [tokensFrom]. rewrite Forall_cons. simpl in Hfuel.
  destruct (classified c).
  - split; [done | by intros [? _]].
  - rewrite IH by lia. split; [done | by intros [_ ?]].
Qed.

(** X3: on a valid string [Split] returns no word at all exactly when no
    byte of the string is a number, a letter or a space. *)
Theorem Split_no_token v :
  isValid v = true →
  (Split v = Some [] ↔ forallBytes (λ c, negb (classified c)) v = true).
Proof.
  intros Hvalid. rewrite Split_tokens by done. unfold tokens.
  rewrite forallBytes_Forall. split.
  - intros [= Hnil]. apply tokensFrom_nil in Hnil; [|by rewrite length_bytes].
    eapply Forall_impl; [done|]. by intros c ->.
  - intros Hall. f_equal. apply tokensFrom_nil; [by rewrite length_bytes|].
    eapply Forall_impl; [done|]. intros c Hc. by apply negb_true_iff.
Qed.

Lemma Split_no_token_witness :
  isValid "_" = true
  ∧ (Split "_" = Some []
     ↔ forallBytes (λ c, negb (classified c)) "_" = true).
Proof. split; [reflexivity | apply (Split_no_token "_"); reflexivity]. Defined.

(** Re-splitting a token. *)
Lemma run_take_run (p : ascii → bool) l : run p (take (run p l) l) = run p l.
Proof.
  induction l as [|c l IH]; [done|]. simpl.
  destruct (p c) eqn:Hc; simpl; [by rewrite Hc, IH | done].
Qed.

Lemma run_take_all (p : ascii → bool) l n :
  (n ≤ run p l)%nat → run p (take n l) = n ∧ drop n (take n l) = [].
Proof.
  revert n. induction l as [|c l IH]; intros [|n] Hn; simpl in *;
    try done; try lia.
  destruct (p c) eqn:Hc; [|lia]. destruct (IH n) as [-> ->]; [lia|]. done.
Qed.

Lemma wordLen_take rest :
  wordLen (take (wordLen rest - 1) rest) = wordLen rest.
Proof.
  unfold wordLen at 2 3. destruct rest as [|next rest]; [done|].
  destruct (IsUpper next) eqn:Hup.
  - set (k := run IsUpper (next :: rest)).
    assert (1 ≤ k)%nat as Hk by (unfold k; simpl; rewrite Hup; lia).
    assert (∀ n, (1 ≤ n ≤ k)%nat →
                 wordLen (take n (next :: rest)) = S n) as Hfull.
    { intros n Hn. destruct (run_take_all IsUpper (next :: rest) n) as [Hr Hd];
        [fold k; lia|].
      destruct n as [|n]; [lia|].
      change (take (S n) (next :: rest)) with (next :: take n rest) in *.
      unfold wordLen. rewrite Hup. cbv zeta. by rewrite Hr, Hd. }
    assert (wordLen (take (k - 1) (next :: rest)) = k) as Hcut.
    { destruct (decide (k = 1%nat)) as [->|Hne]; [done|].
      rewrite Hfull by lia. lia. }
    destruct (drop k (next :: rest)) as [|after ?].
    + replace (S k - 1)%nat with k by lia. apply Hfull. lia.
    + destruct (IsDigit after).
      * replace (S k - 1)%nat with k by lia. apply Hfull. lia.
      * apply Hcut.
  - set (r := run IsLower (next :: rest)).
    replace (S r - 1)%nat with r by lia. unfold wordLen.
    destruct (take r (next :: rest)) as [|next' rest'] eqn:Htake.
    + destruct r as [|r]; [done | by simpl in Htake].
    + assert (next' = next) as ->.
      { destruct r; simpl in Htake; by simplify_eq. }
      rewrite Hup, <- Htake. unfold r. by rewrite run_take_run.
Qed.

Lemma tokenLen_take c rest :
  tokenLen c (take (tokenLen c rest - 1) rest) = tokenLen c rest.
Proof.
  unfold tokenLen. destruct (IsNumber c).
  - replace (S (run IsNumber rest) - 1)%nat with (run IsNumber rest) by lia.
    by rewrite run_take_run.
  - destruct (IsUpper c || IsLower c); [apply wordLen_take|].
    replace (S (run IsSpace rest) - 1)%nat with (run IsSpace rest) by lia.
    by rewrite run_take_run.
Qed.

Lemma tokensFrom_token fuel acc pending c rest :
  Forall (λ b, classified b = false) pending →
  classified c = true →
  (length pending + tokenLen c rest ≤ fuel)%nat →
  tokensFrom fuel acc (pending ++ take (tokenLen c rest) (c :: rest))
  = [str (acc ++ pending ++ take (tokenLen c rest) (c :: rest))].
Proof.
  intros Hpending Hc. revert fuel acc.
  induction Hpending as [|b pending Hb _ IH]; intros fuel acc Hfuel.
  - pose proof (tokenLen_bounds c rest) as Hn.
    destruct (tokenLen c rest) as [|n] eqn:Hlen; [lia|].
    destruct fuel as [|fuel]; [lia|]. simpl. rewrite Hc.
    pose proof (tokenLen_take c rest) as Htake. rewrite Hlen in Htake.
    replace (S n - 1)%nat with n in Htake by lia. rewrite Htake. simpl.
    rewrite take_take, Nat.min_id, (drop_ge (take n rest))
      by (rewrite length_take; lia).
    by destruct fuel.
  - destruct fuel as [|fuel]; [simpl in Hfuel; lia|]. simpl. rewrite Hb.
    rewrite IH by (simpl in Hfuel; lia). by rewrite <- app_assoc.
Qed.

Lemma tokensFrom_isToken fuel pending rest :
  Forall (λ b, classified b = false) pending →
  Forall isToken (tokensFrom fuel pending rest).
Proof.
  revert pending rest. induction fuel as [|fuel IH]; intros pending rest Hp;
    [constructor|].
  destruct rest as [|c rest]; [constructor|]. cbn [tokensFrom].
  destruct (classified c) eqn:Hc.
  - constructor; [by exists pending, c, rest | by apply IH].
  - apply IH, Forall_app. by repeat constructor.
Qed.

Lemma isToken_atomic w : isToken w → Split w = Some [w].
Proof.
  intros (pending & c & rest & -> & Hp & Hc). rewrite Split_words.
  unfold words. destruct (isValid _); [|done]. f_equal. unfold tokens.
  rewrite bytes_str, tokensFrom_token; [done..|].
  rewrite <- length_bytes, bytes_str, length_app.
  pose proof (tokenLen_bounds c rest).
  rewrite length_take. simpl. lia.
Qed.

(** X2: a word that [Split] returns is not split further: splitting it
    again gives back that word alone. *)
Theorem Split_token_atomic v ws w :
  Split v = Some ws → w ∈ ws → Split w = Some [w].
Proof.
  rewrite Split_words. intros [= <-] Hin. unfold words in Hin.
  destruct (isValid v) eqn:Hvalid.
  - apply isToken_atomic.
    pose proof (tokensFrom_isToken (String.length v) [] (bytes v)
                  (Forall_nil_2 _)) as Hall.
    rewrite Forall_forall in Hall. by apply Hall.
  - apply list_elem_of_singleton in Hin as ->. rewrite Split_words.
    unfold words. by rewrite Hvalid.
Qed.

Lemma Split_token_atomic_witness :
  Split "EasyXMLParser" = Some ["Easy"; "XML"; "Parser"]
  ∧ "XML" ∈ ["Easy"; "XML"; "Parser"]
  ∧ Split "XML" = Some ["XML"].
Proof.
  split_and!; [reflexivity | by apply elem_of_cons; right; left |].
  apply (Split_token_atomic "EasyXMLParser" ["Easy"; "XML"; "Parser"]);
    [reflexivity | by apply elem_of_cons; right; left].
Defined.
End SplitterExtras.

Section ScannerExtras.
Import unicode strings camelcase rules.
Implicit Types (v : string) (l rest pending : list ascii).
Local Arguments scanWhile : simpl never.
Local Arguments fuelFor : simpl never.

Lemma scanWhile_past_end p v fuel idx :
  len v ≤ idx → scanWhile p v (S fuel) idx = Some idx.
Proof.
  intros Hidx. unfold scanWhile. by destruct (Z.ltb_spec idx (len v)); [lia|].
Qed.



Lemma cut_length l s ends : length (cut l s ends) = length ends.
Proof. revert s. induction ends as [|e ends IH]; intros s; simpl; [done | by rewrite IH]. Qed.

Lemma chain_lastEnd s ends n : chain s ends n → s ≤ lastEnd (s :: ends).
Proof.
  revert s. induction ends as [|e ends IH]; intros s Hchain.
  - unfold lastEnd. simpl. lia.
  - destruct Hchain as [He Hchain]. apply IH in Hchain.
    assert (lastEnd (s :: e :: ends) = lastEnd (e :: ends)) as -> by done.
    lia.
Qed.

Lemma cut_concat l (s : Z) ends :
  0 ≤ s → chain s ends (Z.of_nat (length l)) →
  concat (map bytes (cut l s ends))
  = take (Z.to_nat (lastEnd (s :: ends) - s)) (drop (Z.to_nat s) l).
Proof.
  revert s. induction ends as [|e ends IH]; intros s Hs Hchain.
  - unfold lastEnd. simpl. by replace (s - s) with 0 by lia.
  - destruct Hchain as [He Hchain]. cbn [cut map concat].
    rewrite bytes_str, IH by (done || lia).
    assert (lastEnd (s :: e :: ends) = lastEnd (e :: ends)) as -> by done.
    pose proof (chain_lastEnd _ _ _ Hchain) as Hlast.
    replace (Z.to_nat (lastEnd (e :: ends) - s))
      with (Z.to_nat (e - s) + Z.to_nat (lastEnd (e :: ends) - e))%nat by lia.
    rewrite <- take_take_drop, drop_drop. do 3 f_equal. lia.
Qed.

Lemma cut_nonempty l s ends :
  0 ≤ s → chain s ends (Z.of_nat (length l)) →
  Forall (λ w, w ≠ "") (cut l s ends).
Proof.
  revert s. induction ends as [|e ends IH]; intros s Hs Hchain; [constructor|].
  destruct Hchain as [He Hchain]. constructor; [|apply IH; [lia | done]].
  apply str_nonempty. intros Hnil. apply (f_equal length) in Hnil.
  rewrite length_take, length_drop in Hnil. simpl in Hnil. lia.
Qed.

(** X5: on increasing end indexes within the string,
    [extractWordsByIndexes] returns one non-empty word for each index, and
    the words, concatenated, are the string up to the last index. *)
Theorem extractWords_subdivision v ends :
  chain 0 ends (len v) →
  ∃ ws,
    extractWordsByIndexes v ends = Some ws
    ∧ length ws = length ends
    ∧ Forall (λ w, w ≠ "") ws
    ∧ String.concat "" ws = String.substring 0 (Z.to_nat (lastEnd ends)) v.
Proof.
  intros Hchain. exists (cut (bytes v) 0 ends). split_and!.
  - unfold extractWordsByIndexes.
    rewrite (extractLoop_cut v _ [] ends []); [done..|lia].
  - apply cut_length.
  - apply cut_nonempty; [done|]. by rewrite <- len_bytes.
  - apply bytes_inj. rewrite bytes_concat, bytes_substring.
    rewrite cut_concat by (done || by rewrite <- len_bytes).
    simpl. do 2 f_equal.
    assert (lastEnd (0 :: ends) = lastEnd ends) as ->; [|lia].
    by destruct ends.
Qed.

Lemma extractWords_subdivision_witness :
  chain 0 [2; 4; 11] (len "GL11Version")
  ∧ ∃ ws,
      extractWordsByIndexes "GL11Version" [2; 4; 11] = Some ws
      ∧ length ws = length [2; 4; 11]
      ∧ Forall (λ w, w ≠ "") ws
      ∧ String.concat "" ws
        = String.substring 0 (Z.to_nat (lastEnd [2; 4; 11])) "GL11Version".
Proof.
  split; [by vm_compute|].
  apply (extractWords_subdivision "GL11Version" [2; 4; 11]). by vm_compute.
Defined.

Lemma extractLoop_S fuel v (endIndexes : list Z) i (words : list string) :
  extractLoop (S fuel) v endIndexes i words
  = if i <? Z.of_nat (length endIndexes) then
      endIndex ← index endIndexes i;
      if (0 <=? endIndex) && (endIndex <=? len v) then
        startIndex ← (if i =? 0 then Some 0 else index endIndexes (i - 1));
        word ← substr v startIndex endIndex;
        extractLoop fuel v endIndexes (i + 1) (words ++ [word])
      else extractLoop fuel v endIndexes (i + 1) words
    else Some words.
Proof. reflexivity. Qed.

Lemma extractLoop_second v (a b : Z) fuel (words : list string) :
  0 ≤ b ≤ len v → a < 0 ∨ b < a →
  extractLoop (S fuel) v [a; b] 1 words = None.
Proof.
  intros Hb Ha. rewrite extractLoop_S.
  change (1 <? Z.of_nat (length [a; b])) with true.
  change (index [a; b] 1) with (Some b). change (1 =? 0) with false.
  change (index [a; b] (1 - 1)) with (Some a).
  cbn [mbind option_bind]. unfold substr.
  destruct (Z.leb_spec 0 b); [|lia]. destruct (Z.leb_spec b (len v)); [|lia].
  cbn [andb].
  destruct (Z.leb_spec 0 a); [|done]. destruct (Z.leb_spec a b); [lia|done].
Qed.

(** X6: [extractWordsByIndexes] checks an end index against the string
    but not the index before it, which it uses as the start: an end index
    in range after one that is negative or greater makes the slice
    expression panic. *)
Theorem extractWords_guard_panics v (a b : Z) :
  0 ≤ b ≤ len v → a < 0 ∨ b < a →
  extractWordsByIndexes v [a; b] = None.
Proof.
  intros Hb Ha. unfold extractWordsByIndexes. rewrite extractLoop_S.
  change (0 <? Z.of_nat (length [a; b])) with true.
  change (index [a; b] 0) with (Some a). change (0 =? 0) with true.
  change (0 + 1) with 1. cbn [mbind option_bind].
  destruct ((0 <=? a) && (a <=? len v)); [|by apply extractLoop_second].
  destruct (substr v 0 a); [|done]. cbn [mbind option_bind].
  by apply extractLoop_second.
Qed.

Lemma extractWords_guard_panics_witness :
  0 ≤ 2 ≤ len "MyID" ∧ (4 < 0 ∨ 2 < 4)
  ∧ extractWordsByIndexes "MyID" [4; 2] = None.
Proof.
  split; [by vm_compute|]. split; [right; by vm_compute|].
  apply (extractWords_guard_panics "MyID" 4 2);
    [by vm_compute | right; by vm_compute].
Defined.
End ScannerExtras.

Section SingleClass.
Import unicode strings camelcase rules.
Implicit Types (v : string) (l rest : list ascii).

(** The four classes of bytes are disjoint. *)
Lemma classes_disjoint c :
  (IsNumber c = true → IsUpper c = false ∧ IsLower c = false ∧ IsSpace c = false)
  ∧ (IsUpper c = true → IsLower c = false ∧ IsSpace c = false)
  ∧ (IsLower c = true → IsSpace c = false).
Proof.
  destruct c as [[|] [|] [|] [|] [|] [|] [|] [|]]; vm_compute;
    repeat split; intros; done.
Qed.

Lemma run_all (p : ascii → bool) l :
  Forall (λ c, p c = true) l → run p l = length l.
Proof. induction 1 as [|c l Hc _ IH]; simpl; [done | by rewrite Hc, IH]. Qed.

Lemma tokenLen_single (p : ascii → bool) c rest :
  p = IsNumber ∨ p = IsUpper ∨ p = IsLower ∨ p = IsSpace →
  Forall (λ b, p b = true) (c :: rest) →
  classified c = true ∧ tokenLen c rest = S (length rest).
Proof.
  intros Hp Hall. apply Forall_cons in Hall as [Hc Hrest].
  destruct (classes_disjoint c) as (HN & HU & HL).
  unfold classified, tokenLen, wordLen.
  destruct Hp as [-> | [-> | [-> | ->]]].
  - rewrite Hc. by rewrite run_all.
  - destruct (IsNumber c) eqn:Hn; [destruct (HN eq_refl); congruence|].
    rewrite Hc. simpl. split; [done|].
    destruct rest as [|next rest]; [done|].
    pose proof (Forall_inv Hrest) as Hnext; simpl in Hnext. rewrite Hnext.
    rewrite run_all, drop_all by done. done.
  - destruct (IsNumber c) eqn:Hn; [destruct (HN eq_refl) as (_ & ? & _); congruence|].
    rewrite Hc, orb_true_r. simpl. split; [done|].
    destruct rest as [|next rest]; [done|].
    pose proof (Forall_inv Hrest) as Hnext; simpl in Hnext.
    destruct (classes_disjoint next) as (_ & HU' & _).
    destruct (IsUpper next) eqn:Hup; [destruct (HU' eq_refl); congruence|].
    by rewrite run_all.
  - destruct (IsNumber c) eqn:Hn;
      [destruct (HN eq_refl) as (_ & _ & ?); congruence|].
    destruct (IsUpper c) eqn:Hu; [destruct (HU eq_refl); congruence|].
    destruct (IsLower c) eqn:Hl; [specialize (HL eq_refl); congruence|].
    rewrite Hc. simpl. by rewrite run_all.
Qed.

(** X7: a valid string made of numbers only, of uppercase letters only,
    of lowercase letters only or of spaces only is one word. *)
Theorem Split_single_class v :
  isValid v = true →
  forallBytes IsNumber v = true ∨ forallBytes IsUpper v = true
  ∨ forallBytes IsLower v = true ∨ forallBytes IsSpace v = true →
  Split v = Some [v].
Proof.
  intros Hvalid Hclass. rewrite Split_tokens by done. f_equal.
  assert (∃ p, (p = IsNumber ∨ p = IsUpper ∨ p = IsLower ∨ p = IsSpace)
               ∧ Forall (λ b, p b = true) (bytes v)) as (p & Hp & Hall).
  { destruct Hclass as [H | [H | [H | H]]]; apply forallBytes_Forall in H;
      [exists IsNumber | exists IsUpper | exists IsLower | exists IsSpace];
      (split; [tauto | exact H]). }
  unfold tokens. rewrite <- length_bytes.
  destruct (bytes v) as [|c rest] eqn:Hbytes.
  { apply isValid_nonempty in Hvalid. destruct v; [done | discriminate]. }
  destruct (tokenLen_single p c rest Hp Hall) as [Hc Hlen].
  pose proof (tokensFrom_token (length (c :: rest)) [] [] c rest
                (Forall_nil_2 _) Hc) as Htok.
  rewrite Hlen in Htok.
  replace (take (S (length rest)) (c :: rest)) with (c :: rest) in Htok
    by (symmetry; apply take_ge; simpl; lia).
  cbn [app] in Htok. rewrite Htok by (simpl; lia).
  by rewrite <- Hbytes, str_bytes.
Qed.

Lemma Split_single_class_witness :
  isValid "lowercase" = true
  ∧ (forallBytes IsNumber "lowercase" = true
     ∨ forallBytes IsUpper "lowercase" = true
     ∨ forallBytes IsLower "lowercase" = true
     ∨ forallBytes IsSpace "lowercase" = true)
  ∧ Split "lowercase" = Some ["lowercase"].
Proof.
  split; [reflexivity|]. split; [right; right; left; reflexivity|].
  apply (Split_single_class "lowercase");
    [reflexivity | right; right; left; reflexivity].
Defined.
End SingleClass.

(** ** More on the Phrase Composer *)
Section ComposerExtras.
Import unicode strings gosentence.
Context `{CaseMapping}.
Implicit Types (v noTransform ws : list string) (s word : string).

Lemma map_id_on {A} (f : A → A) (l : list A) :
  (∀ x, x ∈ l → f x = x) → map f l = l.
Proof.
  induction l as [|x l IH]; intros Hf; [done|]. simpl.
  rewrite Hf by left. rewrite IH; [done|]. intros y Hy. apply Hf. by right.
Qed.

(** X8: when every word after the first is an exception, the phrase is the
    words joined by spaces: no word is changed, whatever its case. *)
Theorem Transform_exceptions_kept v noTransform :
  (∀ word, word ∈ tail v → word ∈ noTransform) →
  Transform v noTransform = Join v " ".
Proof.
  intros Hin. unfold Transform. destruct v as [|first others]; [done|].
  cbn [transformLoop]. change (0 =? 0) with true. cbn [app].
  rewrite transformLoop_rest by done. rewrite map_id_on; [done|].
  intros word Hword. by rewrite decide_True by auto.
Qed.

Lemma ContainsRune_mapBytes_lower s :
  ContainsRune (mapBytes lowerByte s) " " = ContainsRune s " ".
Proof.
  induction s as [|c s IH]; [done|]. simpl. rewrite IH. f_equal.
  destruct c as [[|] [|] [|] [|] [|] [|] [|] [|]]; reflexivity.
Qed.

Lemma Split_no_sep s c : ContainsRune s c = false → Split s c = [s].
Proof.
  induction s as [|a s IH]; [done|]. simpl.
  intros [Ha Hs]%orb_false_iff. rewrite Ha, IH by done. done.
Qed.

Lemma Split_app_sep s c t :
  ContainsRune s c = false →
  Split (s +:+ String c t) c = s :: Split t c.
Proof.
  induction s as [|a s IH]; simpl.
  - intros _. rewrite Ascii.eqb_refl.
    by destruct (strings_Split_cons t c) as (w & ws & ->).
  - intros [Ha Hs]%orb_false_iff. rewrite IH, Ha by done. done.
Qed.

Lemma Split_concat ws c :
  ws ≠ [] →
  Forall (λ w, ContainsRune w c = false) ws →
  Split (String.concat (String c "") ws) c = ws.
Proof.
  induction 2 as [|w ws Hw Hws IH]; [done|].
  destruct ws as [|w' ws]; [by apply Split_no_sep|].
  change (String.concat (String c "") (w :: w' :: ws))
    with (w +:+ String c (String.concat (String c "") (w' :: ws))).
  rewrite Split_app_sep by done. by rewrite IH.
Qed.

(** X9: when the words are ASCII and hold no space, the phrase has one
    space-separated word for each word given: splitting it at the spaces
    gives back the first word, and each later word as it is or in lower
    case. *)
Theorem Transform_split_back first others noTransform :
  Forall (λ w, forallBytes isASCII w = true ∧ ContainsRune w " " = false)
    (first :: others) →
  ∃ ws,
    Split (Transform (first :: others) noTransform) " " = first :: ws
    ∧ Forall2 (λ word w, w = (if slicesContains noTransform word then word
                              else mapBytes lowerByte word)) others ws.
Proof.
  intros [[_ Hfirst] Hothers]%Forall_cons.
  exists (map (λ word, if decide (word ∈ noTransform) then word
                       else ToLower word) others).
  unfold Transform, Join. cbn [transformLoop]. change (0 =? 0) with true.
  cbn [app]. rewrite transformLoop_rest by done. split.
  - apply (Split_concat (first :: _)); [done|]. constructor; [done|].
    clear Hfirst. induction Hothers as [|word others [Hascii Hspace] _ IH];
      simpl; constructor; [|done].
    destruct (decide (word ∈ noTransform)); [done|].
    unfold ToLower. rewrite Hascii. by rewrite ContainsRune_mapBytes_lower.
  - clear Hfirst. induction Hothers as [|word others [Hascii _] _ IH];
      simpl; constructor; [|done].
    unfold ToLower. rewrite Hascii.
    destruct (slicesContains noTransform word) eqn:Hin.
    + apply slicesContains_elem_of in Hin. by rewrite decide_True.
    + rewrite decide_False; [done|].
      intros Hin'%slicesContains_elem_of. congruence.
Qed.
End ComposerExtras.

Section ComposerExamples.
Import unicode strings gosentence.

Lemma Transform_exceptions_kept_witness :
  (∀ word, word ∈ tail ["An"; "HTTP"; "API"] → word ∈ ["API"; "HTTP"])
  ∧ @Transform asciiCase ["An"; "HTTP"; "API"] ["API"; "HTTP"]
    = Join ["An"; "HTTP"; "API"] " ".
Proof.
  assert (∀ word, word ∈ tail ["An"; "HTTP"; "API"] → word ∈ ["API"; "HTTP"])
    as Hin.
  { simpl. intros word. rewrite !elem_of_cons, elem_of_nil. tauto. }
  split; [exact Hin|].
  apply (@Transform_exceptions_kept asciiCase ["An"; "HTTP"; "API"]
           ["API"; "HTTP"] Hin).
Defined.

Lemma Transform_split_back_witness :
  Forall (λ w, forallBytes isASCII w = true ∧ ContainsRune w " " = false)
    ["An"; "HTTP"; "Server"]
  ∧ ∃ ws,
      Split (@Transform asciiCase ["An"; "HTTP"; "Server"] ["HTTP"]) " "
      = "An" :: ws
      ∧ Forall2 (λ word w, w = (if slicesContains ["HTTP"] word then word
                                else mapBytes lowerByte word))
          ["HTTP"; "Server"] ws.
Proof.
  assert (Forall (λ w, forallBytes isASCII w = true
                       ∧ ContainsRune w " " = false)
            ["An"; "HTTP"; "Server"]) as Hall.
  { repeat constructor. }
  split; [exact Hall|].
  apply (@Transform_split_back asciiCase "An" ["HTTP"; "Server"] ["HTTP"]
           Hall).
Defined.
End ComposerExamples.

(** ** More on the group trees *)
Section TreeExtras.
Import strings xunit.
Implicit Types (g s : TestGroup) (tc : TestCase) (names rest : list string)
  (P : TestGroup → Prop).

Lemma everywhere_unfold P g :
  everywhere P g ↔ P g ∧ Forall (everywhere P) (subgroups g).
Proof.
  destruct g as [name tests [|gs]]; unfold subgroups;
    cbn [everywhere elems TestGroup_Groups].
  - rewrite Forall_nil. tauto.
  - apply and_iff_compat_l. induction gs as [|g gs IH].
    + rewrite Forall_nil. tauto.
    + rewrite Forall_cons, IH. tauto.
Qed.

Lemma walk_cons tc nn rest g :
  walk tc (nn :: rest) g
  = match list_find (λ s, TestGroup_Name s = nn) (subgroups g) with
    | Some (i, _) =>
        setGroups g (mk_slice (alter (visitOf tc rest) i (subgroups g)))
    | None =>
        setGroups g (mk_slice (subgroups g ++ [visitOf tc rest
                                 (Build_TestGroup nn nil_slice nil_slice)]))
    end.
Proof. reflexivity. Qed.

Lemma Name_visitOf tc rest s :
  TestGroup_Name (visitOf tc rest s) = TestGroup_Name s.
Proof. unfold visitOf. rewrite Name_walk. by destruct rest. Qed.

Lemma Tests_walk tc names g :
  names ≠ [] → TestGroup_Tests (walk tc names g) = TestGroup_Tests g.
Proof.
  destruct names as [|nn rest]; [done|]. intros _. rewrite walk_cons.
  by destruct (list_find _ _) as [[i x]|].
Qed.

Lemma names_alter (f : TestGroup → TestGroup) i (gs : list TestGroup) :
  (∀ s, TestGroup_Name (f s) = TestGroup_Name s) →
  map TestGroup_Name (alter f i gs) = map TestGroup_Name gs.
Proof.
  intros Hf. revert i. induction gs as [|g gs IH]; intros [|i]; simpl;
    [done.. | by rewrite Hf | f_equal; apply IH].
Qed.

Lemma Forall_alter_pres {A} (Q : A → Prop) (f : A → A) i (l : list A) :
  (∀ x, Q x → Q (f x)) → Forall Q l → Forall Q (alter f i l).
Proof.
  intros Hf Hl. apply Forall_alter; [done|]. intros x _. apply Hf.
Qed.

(** The subgroups of a group after a walk. *)
Lemma subgroups_walk tc nn rest g :
  (∃ i x, list_find (λ s, TestGroup_Name s = nn) (subgroups g) = Some (i, x)
          ∧ subgroups (walk tc (nn :: rest) g)
            = alter (visitOf tc rest) i (subgroups g))
  ∨ (list_find (λ s, TestGroup_Name s = nn) (subgroups g) = None
     ∧ subgroups (walk tc (nn :: rest) g)
       = subgroups g ++ [visitOf tc rest
                           (Build_TestGroup nn nil_slice nil_slice)]).
Proof.
  rewrite walk_cons.
  destruct (list_find _ _) as [[i x]|] eqn:Hfind; [left; eauto | right; eauto].
Qed.

Lemma distinct_addTest g tc :
  everywhere distinctNames g → everywhere distinctNames (addTest g tc).
Proof. rewrite !everywhere_unfold. by destruct g. Qed.

Lemma distinct_walk tc names g :
  everywhere distinctNames g → everywhere distinctNames (walk tc names g).
Proof.
  revert g. induction names as [|nn rest IH]; intros g Hg; [done|].
  assert (∀ s, everywhere distinctNames s →
               everywhere distinctNames (visitOf tc rest s)) as Hvisit.
  { intros s Hs. unfold visitOf. apply IH.
    destruct rest; [by apply distinct_addTest | done]. }
  apply everywhere_unfold in Hg as [Hnames Hsub].
  apply everywhere_unfold. unfold distinctNames.
  destruct (subgroups_walk tc nn rest g) as [(i & x & _ & ->)|[Hfind ->]].
  - split.
    + rewrite names_alter; [done | apply Name_visitOf].
    + by apply Forall_alter_pres.
  - split.
    + rewrite map_app. apply NoDup_app. split_and!; [done | | ].
      * intros name Hin Hnew. cbn [map] in Hnew.
        apply list_elem_of_singleton in Hnew. rewrite Name_visitOf in Hnew.
        simpl in Hnew. subst name. rewrite map_fmap in Hin.
        apply list_elem_of_fmap in Hin as (s & Hs & Hin).
        apply list_find_None in Hfind.
        by apply (proj1 (Forall_forall _ _) Hfind s Hin).
      * apply NoDup_singleton.
    + apply Forall_app. split; [done|]. constructor; [|done].
      apply Hvisit. apply everywhere_unfold. split; [|done]. constructor.
Qed.

Lemma distinct_placeCase g tc :
  everywhere distinctNames g → everywhere distinctNames (placeCase g tc).
Proof.
  intros Hg. unfold placeCase.
  destruct (_ =? _); [by apply distinct_addTest | by apply distinct_walk].
Qed.

(** X10: in the group that the cases of a bucket build, no two groups
    directly below the same group have the same name, at any depth: a
    case is placed in the group of its path that exists, and a group is
    created only when none of that name is there. *)
Theorem groups_distinct_names (trait : string) (tcs : list TestCase) :
  everywhere distinctNames (foldl placeCase (freshGroup trait) tcs).
Proof.
  assert (everywhere distinctNames (freshGroup trait)) as Hfresh.
  { apply everywhere_unfold. split; [|done]. constructor. }
  revert Hfresh. generalize (freshGroup trait).
  induction tcs as [|tc tcs IH]; intros g Hg; [done|].
  simpl. by apply IH, distinct_placeCase.
Qed.
End TreeExtras.

Section TreeLookup.
Import strings xunit.
Implicit Types (g s : TestGroup) (tc x : TestCase)
  (names rest p : list string).

Lemma list_find_alter_name (f : TestGroup → TestGroup) nn i j c
    (gs : list TestGroup) :
  (∀ s, TestGroup_Name (f s) = TestGroup_Name s) →
  list_find (λ s, TestGroup_Name s = nn) gs = Some (j, c) →
  list_find (λ s, TestGroup_Name s = nn) (alter f i gs)
  = Some (j, if decide (i = j) then f c else c).
Proof.
  intros Hf (Hc & Hname & Hfirst)%list_find_Some. apply list_find_Some.
  split_and!.
  - rewrite list_lookup_alter.
    destruct (decide (i = j)) as [->|]; by rewrite Hc.
  - destruct (decide (i = j)); [by rewrite Hf | done].
  - intros k y Hy Hk. rewrite list_lookup_alter in Hy.
    destruct (decide (i = k)) as [->|]; [|by eapply Hfirst].
    destruct (gs !! k) as [y'|] eqn:Hy'; simplify_eq/=.
    rewrite Hf. by eapply Hfirst.
Qed.

Lemma list_find_snoc_new nn (gs : list TestGroup) s :
  list_find (λ s, TestGroup_Name s = nn) gs = None →
  TestGroup_Name s = nn →
  list_find (λ s, TestGroup_Name s = nn) (gs ++ [s])
  = Some (length gs, s).
Proof.
  intros Hnone Hs. apply list_find_Some. split_and!.
  - by apply list_lookup_middle.
  - done.
  - intros k y Hy Hk. rewrite lookup_app_l in Hy by done.
    apply list_find_None in Hnone.
    apply (proj1 (Forall_forall _ _) Hnone). by eapply list_elem_of_lookup_2.
Qed.

Lemma list_find_snoc_old nn (gs : list TestGroup) s j c :
  list_find (λ s, TestGroup_Name s = nn) gs = Some (j, c) →
  list_find (λ s, TestGroup_Name s = nn) (gs ++ [s]) = Some (j, c).
Proof.
  intros (Hc & Hname & Hfirst)%list_find_Some. apply list_find_Some.
  pose proof (lookup_lt_Some _ _ _ Hc) as Hlt. split_and!.
  - by rewrite lookup_app_l.
  - done.
  - intros k y Hy Hk. rewrite lookup_app_l in Hy by lia. by eapply Hfirst.
Qed.

Lemma descend_cons nn rest g :
  descend (nn :: rest) g
  = match list_find (λ s, TestGroup_Name s = nn) (subgroups g) with
    | Some (_, s) => descend rest s
    | None => None
    end.
Proof. reflexivity. Qed.

Lemma foundAt_addTest_old p g tc x :
  foundAt p g x → foundAt p (addTest g tc) x.
Proof.
  intros (s & Hs & Hx). destruct p as [|nn rest].
  - simplify_eq/=. exists (addTest s tc). split; [done|].
    destruct s as [name tests groups]. cbn [addTest TestGroup_Tests append
      elems TestGroup_Name TestGroup_Groups]. apply elem_of_app. by left.
  - exists s. split; [|done]. by destruct g.
Qed.

Lemma foundAt_addTest_new g tc : foundAt [] (addTest g tc) (reportCase tc).
Proof.
  exists (addTest g tc). split; [done|]. destruct g as [name tests groups].
  cbn [addTest TestGroup_Tests append elems]. apply elem_of_app. right.
  by apply list_elem_of_singleton.
Qed.

Lemma foundAt_walk_old tc names : ∀ g p x,
  foundAt p g x → foundAt p (walk tc names g) x.
Proof.
  induction names as [|nn rest IH]; intros g p x Hfound; [done|].
  assert (∀ s q, foundAt q s x → foundAt q (visitOf tc rest s) x) as Hvisit.
  { intros s q Hq. unfold visitOf. apply IH.
    destruct rest; [by apply foundAt_addTest_old | done]. }
  destruct p as [|pn prest].
  - destruct Hfound as (s & Hs & Hx). simplify_eq/=.
    exists (walk tc (nn :: rest) s). split; [done|].
    by rewrite Tests_walk.
  - destruct Hfound as (s & Hs & Hx). rewrite descend_cons in Hs.
    destruct (list_find _ (subgroups g)) as [[j c]|] eqn:Hfind; [|done].
    unfold foundAt. rewrite descend_cons.
    destruct (subgroups_walk tc nn rest g) as [(i & y & _ & ->)|[_ ->]].
    + rewrite (list_find_alter_name _ _ i j c) by
        (done || apply Name_visitOf).
      destruct (decide (i = j)); [|by eauto].
      apply Hvisit. by exists s.
    + rewrite (list_find_snoc_old _ _ _ j c) by done. eauto.
Qed.

Lemma foundAt_walk_new tc names : ∀ g,
  names ≠ [] → foundAt names (walk tc names g) (reportCase tc).
Proof.
  induction names as [|nn rest IH]; intros g Hne; [done|].
  assert (∀ s, foundAt rest (visitOf tc rest s) (reportCase tc)) as Hvisit.
  { intros s. unfold visitOf. destruct rest as [|r rest'].
    - apply foundAt_addTest_new.
    - by apply IH. }
  unfold foundAt. rewrite descend_cons.
  destruct (subgroups_walk tc nn rest g) as [(i & y & Hfind & ->)|[Hfind ->]].
  - rewrite (list_find_alter_name _ _ i i y) by
      (done || apply Name_visitOf).
    rewrite decide_True by done. apply Hvisit.
  - rewrite (list_find_snoc_new nn) by (done || by rewrite Name_visitOf).
    apply Hvisit.
Qed.

Lemma placeCase_cases g tc :
  (elems (TestCase_groups tc) = [] ∧ placeCase g tc = addTest g tc)
  ∨ (elems (TestCase_groups tc) ≠ []
     ∧ placeCase g tc = walk tc (elems (TestCase_groups tc)) g).
Proof.
  unfold placeCase. destruct (elems (TestCase_groups tc)); [by left|].
  by right.
Qed.

Lemma foundAt_placeCase_old p g tc x :
  foundAt p g x → foundAt p (placeCase g tc) x.
Proof.
  intros Hfound. destruct (placeCase_cases g tc) as [[_ ->]|[_ ->]].
  - by apply foundAt_addTest_old.
  - by apply foundAt_walk_old.
Qed.

Lemma foundAt_placeCase_new g tc :
  foundAt (elems (TestCase_groups tc)) (placeCase g tc) (reportCase tc).
Proof.
  destruct (placeCase_cases g tc) as [[Hnil ->]|[Hne ->]].
  - rewrite Hnil. apply foundAt_addTest_new.
  - by apply foundAt_walk_new.
Qed.

Lemma foundAt_foldl_old p g (tcs : list TestCase) x :
  foundAt p g x → foundAt p (foldl placeCase g tcs) x.
Proof.
  revert g. induction tcs as [|tc tcs IH]; intros g Hfound; [done|].
  simpl. by apply IH, foundAt_placeCase_old.
Qed.

Lemma foundAt_foldl g (tcs : list TestCase) tc :
  tc ∈ tcs →
  foundAt (elems (TestCase_groups tc)) (foldl placeCase g tcs)
    (reportCase tc).
Proof.
  revert g. induction tcs as [|tc' tcs IH]; intros g Hin.
  - by apply elem_of_nil in Hin.
  - simpl. apply elem_of_cons in Hin as [->|Hin].
    + apply foundAt_foldl_old, foundAt_placeCase_new.
    + by apply IH.
Qed.

(** X11: every test case of a bucket is found again in the group the
    bucket builds: following the structural path of the case from the top,
    at every step into the group of that name, leads to a group that holds
    the case among its tests; a case without a path is among the tests of
    the top group itself. *)
Theorem placed_case_found (trait : string) (tcs : list TestCase) tc :
  tc ∈ tcs →
  ∃ s,
    descend (elems (TestCase_groups tc)) (foldl placeCase (freshGroup trait) tcs)
    = Some s
    ∧ reportCase tc ∈ elems (TestGroup_Tests s).
Proof. apply foundAt_foldl. Qed.
End TreeLookup.

Section TreeShape.
Import strings xunit.
Implicit Types (g s : TestGroup) (tc x : TestCase)
  (names rest p : list string).

Lemma placed_case_found_witness :
  nestedCase ∈ [flatCase; nestedCase]
  ∧ ∃ s,
      descend (elems (TestCase_groups nestedCase))
        (foldl placeCase (freshGroup "Category - Unit") [flatCase; nestedCase])
      = Some s
      ∧ reportCase nestedCase ∈ elems (TestGroup_Tests s).
Proof.
  assert (nestedCase ∈ [flatCase; nestedCase]) as Hin.
  { apply elem_of_cons. right. apply elem_of_cons. by left. }
  split; [exact Hin|].
  apply (placed_case_found "Category - Unit" [flatCase; nestedCase]
           nestedCase Hin).
Defined.

Lemma Tests_placeCase g tc :
  elems (TestGroup_Tests (placeCase g tc))
  = elems (TestGroup_Tests g) ++ (if isFlat tc then [reportCase tc] else []).
Proof.
  unfold isFlat. destruct (placeCase_cases g tc) as [[Hnil ->]|[Hne ->]].
  - rewrite Hnil. by destruct g.
  - rewrite Tests_walk by done.
    destruct (elems (TestCase_groups tc)); [done|]. by rewrite app_nil_r.
Qed.

(** X12: the tests directly in the group of a bucket are the cases of the
    bucket that have no structural path, in the order of the bucket; the
    cases under a path are below, not here. *)
Theorem direct_tests_in_order (trait : string) (tcs : list TestCase) :
  elems (TestGroup_Tests (foldl placeCase (freshGroup trait) tcs))
  = map reportCase (filter (λ tc, isFlat tc = true) tcs).
Proof.
  change (map reportCase (filter (λ tc, isFlat tc = true) tcs))
    with (elems (TestGroup_Tests (freshGroup trait))
          ++ map reportCase (filter (λ tc, isFlat tc = true) tcs)).
  generalize (freshGroup trait).
  induction tcs as [|tc tcs IH]; intros g; simpl.
  - by rewrite app_nil_r.
  - rewrite IH, Tests_placeCase, <- app_assoc. f_equal.
    rewrite filter_cons. by destruct (isFlat tc).
Qed.

Lemma inhabited_visitOf tc rest s :
  (∀ g, Forall (everywhere inhabited) (subgroups g) →
        Forall (everywhere inhabited) (subgroups (walk tc rest g))
        ∧ (rest ≠ [] → subgroups (walk tc rest g) ≠ [])) →
  Forall (everywhere inhabited) (subgroups s) →
  everywhere inhabited (visitOf tc rest s).
Proof.
  intros IH Hs. unfold visitOf. apply everywhere_unfold.
  destruct rest as [|r rest'].
  - split; [|by destruct s]. left. destruct s as [name tests groups].
    cbn [walk addTest TestGroup_Tests append elems].
    by destruct (elems tests).
  - destruct (IH s Hs) as [Hsub Hne]. split; [|done]. right. by apply Hne.
Qed.

Lemma inhabited_walk tc names : ∀ g,
  Forall (everywhere inhabited) (subgroups g) →
  Forall (everywhere inhabited) (subgroups (walk tc names g))
  ∧ (names ≠ [] → subgroups (walk tc names g) ≠ []).
Proof.
  induction names as [|nn rest IH]; intros g Hg; [done|].
  destruct (subgroups_walk tc nn rest g) as [(i & y & Hfind & ->)|[_ ->]].
  - split.
    + apply Forall_alter; [done|]. intros s _ Hs.
      apply inhabited_visitOf; [done|].
      by apply everywhere_unfold in Hs as [_ Hs].
    + intros _ Hnil. apply list_find_Some in Hfind as (Hy & _).
      apply (f_equal length) in Hnil. rewrite length_alter in Hnil.
      apply lookup_lt_Some in Hy. simpl in Hnil. lia.
  - split.
    + apply Forall_app. split; [done|]. constructor; [|done].
      by apply inhabited_visitOf.
    + intros _ Hnil. by apply app_eq_nil in Hnil as [_ ?].
Qed.

Lemma inhabited_placeCase g tc :
  Forall (everywhere inhabited) (subgroups g) →
  everywhere inhabited (placeCase g tc).
Proof.
  intros Hg. apply everywhere_unfold.
  destruct (placeCase_cases g tc) as [[_ ->]|[Hne ->]].
  - split; [|by destruct g]. left. destruct g as [name tests groups].
    cbn [addTest TestGroup_Tests append elems]. by destruct (elems tests).
  - destruct (inhabited_walk tc (elems (TestCase_groups tc)) g Hg)
      as [Hsub Hnonempty].
    split; [|done]. right. by apply Hnonempty.
Qed.

(** X13: the group of a bucket that is not empty has no empty group, at
    any depth: it holds a test or a group, and so does every group
    below it. *)
Theorem no_empty_group (trait : string) (tcs : list TestCase) :
  tcs ≠ [] →
  everywhere inhabited (foldl placeCase (freshGroup trait) tcs).
Proof.
  assert (Forall (everywhere inhabited) (subgroups (freshGroup trait)))
    as Hfresh by constructor.
  revert Hfresh. generalize (freshGroup trait).
  induction tcs as [|tc tcs IH]; intros g Hg Hne; [done|]. simpl.
  pose proof (inhabited_placeCase g tc Hg) as Hplaced.
  destruct tcs as [|tc' tcs]; [done|].
  apply IH; [|done]. by apply everywhere_unfold in Hplaced as [_ ?].
Qed.

Lemma no_empty_group_witness :
  [flatCase; nestedCase] ≠ []
  ∧ everywhere inhabited
      (foldl placeCase (freshGroup "Category - Unit") [flatCase; nestedCase]).
Proof.
  split; [discriminate|].
  apply (no_empty_group "Category - Unit" [flatCase; nestedCase]).
  discriminate.
Defined.
End TreeShape.

(** ** More on names *)
Section NameExtras.
Import strings xunit.
Implicit Types (s q m args : string) (c : ascii).

Lemma ContainsRune_app s1 s2 c :
  ContainsRune (s1 +:+ s2) c = ContainsRune s1 c || ContainsRune s2 c.
Proof.
  induction s1 as [|a s1 IH]; [done|]. simpl. by rewrite IH, orb_assoc.
Qed.

Lemma afterLast_app q c s :
  ContainsRune s c = false → afterLast c (q +:+ String c s) = s.
Proof.
  intros Hs. induction q as [|a q IH]; simpl.
  - by rewrite Hs, Ascii.eqb_refl.
  - rewrite ContainsRune_app. simpl. rewrite Ascii.eqb_refl, orb_true_r.
    done.
Qed.

Lemma beforeLast_app m c s :
  ContainsRune s c = false → beforeLast c (m +:+ String c s) = m.
Proof.
  intros Hs. induction m as [|a m IH]; simpl.
  - by rewrite Hs, Ascii.eqb_refl.
  - rewrite ContainsRune_app. simpl. rewrite Ascii.eqb_refl, orb_true_r.
    by rewrite IH.
Qed.

(** X14: a test without a display name whose name is [Q.M(ARGS)], with no
    ['.'] and no ['('] in [M] and in [ARGS], gets the label of [M] as its
    friendly name: the qualifier and the parameter list are dropped. *)
Theorem friendlyName_drops_parameters `{CaseMapping} (t : test) q m args :
  hasDisplayName t = false →
  test_Name t = q +:+ "." +:+ m +:+ "(" +:+ args →
  ContainsRune m "." = false → ContainsRune m "(" = false →
  ContainsRune args "." = false → ContainsRune args "(" = false →
  friendlyName t = Some (label m).
Proof.
  intros Hd Hname Hm1 Hm2 Ha1 Ha2. rewrite friendlyName_humanized by done.
  do 2 f_equal. unfold methodName. rewrite Hname.
  change (q +:+ "." +:+ m +:+ "(" +:+ args)
    with (q +:+ String "." (m +:+ String "(" args)).
  rewrite afterLast_app.
  - rewrite ContainsRune_app. simpl. rewrite orb_true_r.
    by apply beforeLast_app.
  - rewrite ContainsRune_app. simpl. by rewrite Hm1, Ha1.
Qed.

Lemma friendlyName_drops_parameters_witness :
  hasDisplayName (namedTest "NS.Suite.AddsNumbers(a: 1, b: 2)" "NS.Suite")
  = false
  ∧ @friendlyName asciiCase
      (namedTest "NS.Suite.AddsNumbers(a: 1, b: 2)" "NS.Suite")
    = Some (@label asciiCase "AddsNumbers").
Proof.
  split; [reflexivity|].
  apply (@friendlyName_drops_parameters asciiCase
           (namedTest "NS.Suite.AddsNumbers(a: 1, b: 2)" "NS.Suite")
           "NS.Suite" "AddsNumbers" "a: 1, b: 2)"); reflexivity.
Defined.

Lemma key_inj (n1 n2 v1 v2 : string) :
  ContainsRune n1 "-" = false → ContainsRune n2 "-" = false →
  n1 +:+ " - " +:+ v1 = n2 +:+ " - " +:+ v2 → n1 = n2 ∧ v1 = v2.
Proof.
  revert n2. induction n1 as [|a n1 IH]; intros [|b n2] H1 H2 Heq.
  - by simplify_eq/=.
  - simplify_eq/=. destruct n2 as [|b' n2]; simplify_eq/=.
  - simplify_eq/=. destruct n1 as [|a' n1]; simplify_eq/=.
  - simpl in *. apply orb_false_iff in H1 as [_ H1].
    apply orb_false_iff in H2 as [_ H2]. injection Heq as -> Heq.
    by destruct (IH n2 H1 H2 Heq) as [-> ->].
Qed.

(** X15: two traits whose names hold no ['-'] render to the same key only
    when they are the same trait: such traits never share a group by
    accident. *)
Theorem trait_key_injective (t1 t2 : trait) :
  ContainsRune (trait_Name t1) "-" = false →
  ContainsRune (trait_Name t2) "-" = false →
  trait_friendlyName t1 = trait_friendlyName t2 → t1 = t2.
Proof.
  intros H1 H2 Heq. destruct t1 as [n1 v1], t2 as [n2 v2].
  unfold trait_friendlyName in Heq. simpl in *.
  by destruct (key_inj n1 n2 v1 v2 H1 H2 Heq) as [-> ->].
Qed.

Lemma trait_key_injective_witness :
  ContainsRune (trait_Name (traitOf "Category" "Unit - Fast")) "-" = false
  ∧ trait_friendlyName (traitOf "Category" "Unit - Fast")
    = trait_friendlyName (traitOf "Category" "Unit - Fast")
  ∧ traitOf "Category" "Unit - Fast" = traitOf "Category" "Unit - Fast".
Proof.
  split; [reflexivity|]. split; [reflexivity|].
  apply (trait_key_injective (traitOf "Category" "Unit - Fast")
           (traitOf "Category" "Unit - Fast")); reflexivity.
Defined.
End NameExtras.

(** ** Labels *)
Section LabelExtras.
Import unicode strings camelcase gosentence rules xunit.
Context `{CaseMapping}.
Implicit Types (p u w : string) (us ws : list string).

Lemma dropSpaces_app u w :
  dropSpaces (u +:+ w) = dropSpaces u +:+ dropSpaces w.
Proof.
  induction u as [|c u IH]; [done|]. simpl.
  destruct (Ascii.eqb c " "); [done|]. simpl. by rewrite IH.
Qed.

Lemma dropSpaces_none w : ContainsRune w " " = false → dropSpaces w = w.
Proof.
  induction w as [|c w IH]; [done|]. simpl.
  intros [-> Hw]%orb_false_iff. by rewrite IH.
Qed.

Lemma mapBytes_app (f : ascii → ascii) u w :
  mapBytes f (u +:+ w) = mapBytes f u +:+ mapBytes f w.
Proof. induction u as [|c u IH]; [done|]. simpl. by rewrite IH. Qed.

Lemma lowerByte_idem w :
  mapBytes lowerByte (mapBytes lowerByte w) = mapBytes lowerByte w.
Proof.
  induction w as [|c w IH]; [done|]. simpl. rewrite IH. f_equal.
  destruct c as [[|] [|] [|] [|] [|] [|] [|] [|]]; reflexivity.
Qed.

Lemma forallBytes_app (q : ascii → bool) u w :
  forallBytes q (u +:+ w) = forallBytes q u && forallBytes q w.
Proof.
  induction u as [|c u IH]; [done|]. simpl. by rewrite IH, andb_assoc.
Qed.

Lemma concat_cons2 sep w w' ws :
  String.concat sep (w :: w' :: ws)
  = w +:+ sep +:+ String.concat sep (w' :: ws).
Proof. reflexivity. Qed.

Lemma words_of_concat (q : ascii → bool) c ws :
  forallBytes q (String.concat "" ws) = true →
  ContainsRune (String.concat "" ws) c = false →
  Forall (λ w, forallBytes q w = true ∧ ContainsRune w c = false) ws.
Proof.
  induction ws as [|w ws IH]; [constructor|].
  destruct ws as [|w' ws].
  - intros Hq Hc. by repeat constructor.
  - rewrite concat_cons2. change ("" +:+ ?s) with s.
    rewrite forallBytes_app, ContainsRune_app.
    intros [Hq Hqs]%andb_true_iff [Hc Hcs]%orb_false_iff.
    constructor; [done | by apply IH].
Qed.

(** Joining with spaces words that hold none, and dropping the spaces,
    changes nothing but the case that the words differ in. *)
Lemma dropSpaces_join us ws :
  Forall2 (λ u w, ContainsRune u " " = false
                  ∧ mapBytes lowerByte u = mapBytes lowerByte w) us ws →
  mapBytes lowerByte (dropSpaces (String.concat " " us))
  = mapBytes lowerByte (String.concat "" ws).
Proof.
  induction 1 as [|u w us ws [Hu Huw] Hrest IH]; [done|].
  destruct Hrest as [|u' w' us ws Hhead Hrest].
  - simpl. by rewrite dropSpaces_none.
  - rewrite !concat_cons2. change ("" +:+ ?s) with s.
    rewrite !dropSpaces_app, !mapBytes_app, IH, dropSpaces_none by done.
    by rewrite Huw.
Qed.

Lemma Transform_keeps_letters ws :
  Forall (λ w, forallBytes isASCII w = true ∧ ContainsRune w " " = false) ws →
  mapBytes lowerByte (dropSpaces (Transform ws []))
  = mapBytes lowerByte (String.concat "" ws).
Proof.
  intros Hws. unfold Transform, Join. destruct ws as [|first rest]; [done|].
  cbn [transformLoop]. change (0 =? 0) with true. cbn [app].
  rewrite transformLoop_rest by done. cbn [app].
  apply Forall_cons in Hws as [[_ Hfirst] Hrest].
  apply dropSpaces_join. constructor; [done|].
  induction Hrest as [|w ws [Hascii Hspace] _ IH]; [constructor|].
  cbn [map]. constructor; [|done].
  rewrite decide_False by apply not_elem_of_nil.
  unfold ToLower. rewrite Hascii.
  by rewrite ContainsRune_mapBytes_lower, lowerByte_idem.
Qed.

(** X24: humanizing an ASCII identifier that holds no space and ends
    with a number, a letter or white space changes only the case of its
    letters and adds spaces: without the spaces, and compared without
    regard to case, the label is the identifier. *)
Theorem humanize_keeps_letters p :
  forallBytes isASCII p = true → ContainsRune p " " = false →
  endsClassified p = true →
  ∃ name,
    humanize p = Some name
    ∧ mapBytes lowerByte (dropSpaces name) = mapBytes lowerByte p.
Proof.
  intros Hascii Hspace Hend. exists (label p).
  split; [apply humanize_label|]. unfold label, words.
  destruct (isValid p) eqn:Hvalid.
  - destruct (tokens_partition p (isValid_nonempty p Hvalid))
      as (tail & Hcat & _ & Htail).
    apply Htail in Hend. subst tail.
    assert (String.concat "" (tokens p) = p) as Hp.
    { rewrite <- Hcat at 2. apply bytes_inj.
      by rewrite bytes_app, app_nil_r. }
    rewrite Transform_keeps_letters; [by rewrite Hp|].
    apply words_of_concat; by rewrite Hp.
  - rewrite Transform_keeps_letters by (by repeat constructor). done.
Qed.
End LabelExtras.

Section LabelExamples.
Import unicode strings rules xunit.

Lemma humanize_keeps_letters_witness :
  forallBytes isASCII "GetHTTPResponse2xx" = true
  ∧ ContainsRune "GetHTTPResponse2xx" " " = false
  ∧ endsClassified "GetHTTPResponse2xx" = true
  ∧ ∃ name,
      @humanize asciiCase "GetHTTPResponse2xx" = Some name
      ∧ mapBytes lowerByte (dropSpaces name)
        = mapBytes lowerByte "GetHTTPResponse2xx".
Proof.
  split_and!; [reflexivity..|].
  apply (@humanize_keeps_letters asciiCase "GetHTTPResponse2xx");
    reflexivity.
Defined.
End LabelExamples.

(** ** More on the index and the report *)
Section ReportExtras.
Import strings xunit.
Context `{CaseMapping}.
Implicit Types (m : gmap string (list TestCase)) (t : test) (key : string).

Lemma nonempty_addCase m key tc :
  map_Forall (λ _ tcs, tcs ≠ []) m →
  map_Forall (λ _ tcs, tcs ≠ []) (addCase m key tc).
Proof.
  intros Hm. unfold addCase. apply map_Forall_insert_2; [|done].
  by destruct (bucket m key).
Qed.

Lemma nonempty_addKeys m t :
  map_Forall (λ _ tcs, tcs ≠ []) m →
  map_Forall (λ _ tcs, tcs ≠ []) (addKeys t m).
Proof.
  unfold addKeys. generalize (keysOf t). intros keys. revert m.
  induction keys as [|key keys IH]; intros m Hm; [done|].
  simpl. by apply IH, nonempty_addCase.
Qed.

(** X22: [uniqueTraits] does not panic, and the index it leaves in the
    assembly has no empty bucket: a key is in the index only with a test
    case under it. *)
Theorem index_no_empty_bucket (a : assembly) :
  ∃ keys m,
    uniqueTraits a = Some (keys, m)
    ∧ map_Forall (λ _ tcs, tcs ≠ []) m.
Proof.
  rewrite uniqueTraits_index. do 2 eexists. split; [done|].
  generalize (allTests a). intros ts.
  assert (map_Forall (λ _ tcs, tcs ≠ [])
            (∅ : gmap string (list TestCase))) as Hm
    by apply map_Forall_empty.
  revert Hm. generalize (∅ : gmap string (list TestCase)).
  induction ts as [|t ts IH]; intros m Hm; [exact Hm|].
  simpl. by apply IH, nonempty_addKeys.
Qed.

Lemma forEach_Forall2 {A B} (R : A → B → Prop)
    (body : slice B → A → option (slice B)) (l : list A) :
  (∀ acc a, ∃ b, body acc a = Some (append acc b) ∧ R a b) →
  ∀ xs, ∃ bs, forEach body l (mk_slice xs) = Some (mk_slice (xs ++ bs))
              ∧ Forall2 R l bs.
Proof.
  intros Hbody. induction l as [|a l IH]; intros xs.
  - exists []. split; [|constructor]. simpl. by rewrite app_nil_r.
  - destruct (Hbody (mk_slice xs) a) as (b & Hb & HR).
    destruct (IH (xs ++ [b])) as (bs & Hbs & Hall).
    exists (b :: bs). split; [|by constructor].
    cbn [forEach]. rewrite Hb. cbn [mbind option_bind].
    change (append (mk_slice xs) b) with (mk_slice (xs ++ [b])).
    by rewrite Hbs, <- app_assoc.
Qed.

(** X23: [readResult] does not panic; the report takes the computer, the
    user and the times from the root of the document, and has one
    assembly for each assembly of the document, in the order of the
    document: its counters, date and times are the ones of the document,
    not counted from the tests, and its groups are those of
    [groupTests]. *)
Theorem readResult_assemblies (r : result) :
  ∃ run,
    readResult r = Some run
    ∧ Computer run = result_Computer r
    ∧ User run = result_User r
    ∧ StartTimeRTF run = StartRTF r
    ∧ EndTimeRTF run = FinishRTF r
    ∧ Timestamp run = result_Timestamp r
    ∧ Forall2 reports (result_Assemblies r) (elems (Assemblies run)).
Proof.
  unfold readResult, make.
  edestruct (forEach_Forall2 reports) as (bs & -> & Hall).
  - intros acc a. destruct (groupTests_total a) as [testGroups Hgroups].
    rewrite Hgroups. simpl. eexists. split; [done|].
    by unfold reports.
  - simpl. eexists. by split_and!.
Qed.
End ReportExtras.

(** ** The printed report *)
Section Printer.
Import strings xunit main.
Implicit Types (g : TestGroup) (tc : TestCase) (out : list output).

Lemma TestGroup_forall (P : TestGroup → Prop) :
  (∀ name tests groups,
     Forall P (elems groups) → P (Build_TestGroup name tests groups)) →
  ∀ g, P g.
Proof.
  intros Hstep. fix IH 1. intros [name tests groups]. apply Hstep.
  destruct groups as [|gs]; [constructor|]. simpl.
  induction gs as [|g gs IHgs]; constructor; [apply IH | exact IHgs].
Qed.

Lemma allNames_unfold g :
  allNames g
  = TestGroup_Name g :: concat (map allNames (elems (TestGroup_Groups g))).
Proof.
  destruct g as [name tests [|gs]]; simpl; [done|]. f_equal.
  induction gs as [|g gs IH]; [done|]. simpl. by rewrite IH.
Qed.

Lemma Repeat_is_Some s count : 0 ≤ count → is_Some (Repeat s count).
Proof.
  intros Hc. unfold Repeat. destruct (Z.ltb_spec count 0); [lia | eauto].
Qed.

Lemma printTest_printed indentLevel tc :
  0 ≤ indentLevel →
  ∃ o, printTest indentLevel tc = Some o
       ∧ printedTest o = Some (TestCase_Name tc, TestCase_Time tc)
       ∧ printedGroup o = None.
Proof.
  intros Hi. destruct (Repeat_is_Some " " indentLevel Hi) as [indent Hr].
  unfold printTest. rewrite Hr. cbn [mbind option_bind].
  destruct (float32_le _ fast); [eauto|].
  destruct (float32_le _ medium); eauto.
Qed.

Lemma printTests_printed indentLevel (tcs : list TestCase) :
  0 ≤ indentLevel →
  ∃ lines, mapM (printTest indentLevel) tcs = Some lines
           ∧ omap printedTest lines
             = map (λ tc, (TestCase_Name tc, TestCase_Time tc)) tcs
           ∧ omap printedGroup lines = []
           ∧ length lines = length tcs.
Proof.
  intros Hi. induction tcs as [|tc tcs (lines & Hlines & Htests & Hgroups & Hlen)].
  - by exists [].
  - destruct (printTest_printed indentLevel tc Hi) as (o & Ho & Ht & Hg).
    exists (o :: lines). split_and!.
    + cbn [mapM]. rewrite Ho. cbn [mbind option_bind]. by rewrite Hlines.
    + change (omap printedTest (o :: lines))
        with (match printedTest o with
              | Some y => y :: omap printedTest lines
              | None => omap printedTest lines
              end).
      by rewrite Ht, Htests.
    + change (omap printedGroup (o :: lines))
        with (match printedGroup o with
              | Some y => y :: omap printedGroup lines
              | None => omap printedGroup lines
              end).
      by rewrite Hg.
    + simpl. by rewrite Hlen.
Qed.

(** [printGroup], with the loop over the groups as a map. *)
Lemma printGroup_unfold g indentLevel :
  printGroup g indentLevel
  = (header ←
       (if negb (String.eqb (TestGroup_Name g) "") then
          indent ← Repeat " " (indentLevel + 1);
          Some [Printf ("%sGroup: %s" +:+ crlf)
                  [argString indent; argString (TestGroup_Name g)]]
        else Some []);
     lines ← mapM (printTest indentLevel) (elems (TestGroup_Tests g));
     below ← mapM (λ g', printGroup g' (indentLevel + 1))
               (elems (TestGroup_Groups g));
     Some (header ++ lines
           ++ (if 0 <? Z.of_nat (length (elems (TestGroup_Tests g)))
               then [Println ""] else [])
           ++ concat below)).
Proof.
  destruct g as [name tests groups].
  cbn [printGroup TestGroup_Name TestGroup_Tests TestGroup_Groups].
  destruct (if negb (String.eqb name "") then _ else _) as [header|];
    [|done].
  cbn [mbind option_bind].
  destruct (mapM (printTest indentLevel) (elems tests)) as [lines|]; [|done].
  cbn [mbind option_bind].
  assert (∀ gs : list TestGroup,
            (fix each (gs : list TestGroup) : option (list output) :=
               match gs with
               | [] => Some []
               | g :: gs' =>
                   out ← printGroup g (indentLevel + 1);
                   rest ← each gs';
                   Some (out ++ rest)
               end) gs
            = (λ below, concat below)
              <$> mapM (λ g', printGroup g' (indentLevel + 1)) gs)
    as Heach.
  { induction gs as [|g gs IH]; [done|]. rewrite IH. cbn [mapM].
    destruct (printGroup g (indentLevel + 1)) as [out|]; [|done].
    cbn [mbind option_bind].
    by destruct (mapM _ gs). }
  destruct groups as [|gs]; [done|]. cbn [elems]. rewrite Heach.
  by destruct (mapM _ gs).
Qed.


End Printer.

(** ** The assertions *)
Section AssertTests.
Import assert.

Example assert_TestEqualS :
  EqualS newT [1; 2; 3] [] "Equal([]int{1, 2, 3}, []int{})" []
  = Returned {| isFailed := true;
                failureMsg := "Equal([]int{1, 2, 3}, []int{}) - Unequal slice length = 3, want 0" |}
  ∧ EqualS newT [1; 2; 3] [3; 2; 1] "Equal([]int{1, 2, 3}, []int{3, 2, 1})" []
    = Returned {| isFailed := true;
                  failureMsg := "Equal([]int{1, 2, 3}, []int{3, 2, 1}) - Idx #0 = 1, want 3" |}
  ∧ EqualS newT [1; 2; 3] [1; 2; 3] "Equal([]int{1, 2, 3}, []int{1, 2, 3})" []
    = Returned newT.
Proof. by vm_compute. Qed.
End AssertTests.

Section AssertExtras.
Import assert.

Section AnyT.
Context `{Values} {T : Type} `{!TB T} {E : Type} `{!Comparable E}.
Implicit Types (tb : T) (got want : list E) (name : string) (msg : list any).

(** X17: a failing [Equal] that is given no name and no message, or a
    message whose first element is not a string, panics: [failT] indexes
    and asserts the message unguarded. *)
Theorem Equal_without_message_panics tb (x y : E) msg :
  equal x y = false →
  msg = [] ∨ (∃ first rest, msg = first :: rest ∧ asString first = None) →
  Equal tb x y "" msg = Panicked.
Proof.
  intros Hne Hmsg. unfold Equal, failT. rewrite Hne. simpl.
  destruct Hmsg as [->|(first & rest & -> & Hfirst)]; [done|].
  by rewrite Hfirst.
Qed.

(** X18: on a [tb] that has failed already, [EqualS] compares no element:
    given slices of one length, equal or not, it returns and leaves [tb]
    as it is. *)
Theorem EqualS_after_failure tb got want name msg :
  Failed tb = true → length got = length want →
  EqualS tb got want name msg = Returned tb.
Proof.
  intros Hfailed Hlen. unfold EqualS. rewrite Hlen, Z.eqb_refl. simpl.
  by rewrite Hfailed.
Qed.

Lemma failT_named tb (x y : any) name template msg :
  name ≠ "" →
  failT tb x y name template msg = Fatalf template [ofString name; x; y] tb.
Proof.
  intros Hname. unfold failT.
  by destruct (String.eqb_spec name "").
Qed.

Hypothesis Fatalf_fails : ∀ format args tb tb',
  Fatalf format args tb = Returned tb' → Failed tb' = true.
Hypothesis Fatalf_no_panic : ∀ format args tb,
  Fatalf format args tb ≠ Panicked.

Lemma equalLoop_in_bounds got : ∀ idx want name msg tb,
  name ≠ "" → 0 ≤ idx →
  Z.of_nat (length want) = idx + Z.of_nat (length got) →
  equalLoop idx got want name msg tb ≠ Panicked.
Proof.
  induction got as [|el got IH]; intros idx want name msg tb Hname Hidx Hlen;
    [done|].
  cbn [equalLoop]. destruct (Failed tb); [done|].
  cbn [length] in Hlen. unfold index.
  destruct (Z.leb_spec 0 idx); [|lia].
  destruct (want !! Z.to_nat idx) as [w|] eqn:Hw.
  - destruct (equal el w); cbn [negb andThen].
    + apply IH; [done | lia | lia].
    + rewrite failT_named by done.
      destruct (Fatalf _ _ tb) as [tb'| |] eqn:Hfatal; cbn [andThen];
        [|done|by apply Fatalf_no_panic in Hfatal].
      apply IH; [done | lia | lia].
  - apply lookup_ge_None in Hw. lia.
Qed.

(** X19: with a name, and a [tb] whose [Fatalf] does not panic and
    either ends the goroutine or marks [tb] as failed, [EqualS] does not
    panic: [want] is never indexed beyond its length, whatever the
    lengths of the slices. *)
Theorem EqualS_in_bounds tb got want name msg :
  name ≠ "" → EqualS tb got want name msg ≠ Panicked.
Proof.
  intros Hname. unfold EqualS.
  destruct (Z.eqb_spec (Z.of_nat (length got)) (Z.of_nat (length want)))
    as [Hlen|Hlen]; cbn [negb andThen].
  - destruct (Failed tb); [done|]. apply equalLoop_in_bounds; [done | lia..].
  - rewrite failT_named by done.
    destruct (Fatalf _ _ tb) as [tb'| |] eqn:Hfatal; cbn [andThen];
      [|done|by apply Fatalf_no_panic in Hfatal].
    by rewrite (Fatalf_fails _ _ _ _ Hfatal).
Qed.
End AnyT.

Section Double.
Context `{Values} {E : Type} `{!Comparable E}.
Implicit Types (tb : testableT) (got want : list E) (name : string)
  (msg : list any).

Hypothesis equal_spec : ∀ x y : E, equal x y = true ↔ x = y.

Lemma equalLoop_equal got : ∀ idx pre tb name msg,
  isFailed tb = false → idx = Z.of_nat (length pre) →
  equalLoop idx got (pre ++ got) name msg tb = Returned tb.
Proof.
  induction got as [|el got IH]; intros idx pre tb name msg Hok ->; [done|].
  cbn [equalLoop]. cbn [Failed testableT_TB]. rewrite Hok.
  unfold index. destruct (Z.leb_spec 0 (Z.of_nat (length pre))); [|lia].
  rewrite Nat2Z.id, list_lookup_middle by done.
  rewrite (proj2 (equal_spec el el) eq_refl). cbn [negb andThen].
  rewrite (cons_middle el pre got), app_assoc.
  apply IH; [done|]. rewrite length_app. simpl. lia.
Qed.

Lemma equalLoop_differ got : ∀ idx pre want tb name msg,
  isFailed tb = false → name ≠ "" → idx = Z.of_nat (length pre) →
  length got = length want → got ≠ want →
  ∃ tb', equalLoop idx got (pre ++ want) name msg tb = Returned tb'
         ∧ isFailed tb' = true.
Proof.
  induction got as [|el got IH];
    intros idx pre [|w want] tb name msg Hok Hname -> Hlen Hne;
    simplify_eq/=.
  rewrite Hok. unfold index.
  destruct (Z.leb_spec 0 (Z.of_nat (length pre))); [|lia].
  rewrite Nat2Z.id, list_lookup_middle by done.
  destruct (equal el w) eqn:Heq; cbn [negb andThen].
  - apply equal_spec in Heq as ->.
    rewrite (cons_middle w pre want), app_assoc.
    apply IH; [done | done | | done | congruence].
    rewrite length_app. simpl. lia.
  - rewrite failT_named by done. cbn [Fatalf testableT_TB andThen].
    destruct got; eauto.
Qed.

(** X20: on a [testableT] that has not failed, and given a name, [EqualS]
    returns; it leaves the double as it is when the slices are equal and
    marks it as failed when they are not. *)
Theorem EqualS_verdict tb got want name msg :
  isFailed tb = false → name ≠ "" →
  ∃ tb',
    EqualS tb got want name msg = Returned tb'
    ∧ (got = want → tb' = tb)
    ∧ (got ≠ want → isFailed tb' = true).
Proof.
  intros Hok Hname. unfold EqualS.
  destruct (Z.eqb_spec (Z.of_nat (length got)) (Z.of_nat (length want)))
    as [Hlen|Hlen]; cbn [negb andThen].
  - cbn [Failed testableT_TB]. rewrite Hok.
    assert (EqDecision E) as Hdec.
    { intros x y. destruct (equal x y) eqn:Heq.
      - left. by apply equal_spec.
      - right. intros Hxy%equal_spec. congruence. }
    destruct (decide (got = want)) as [->|Hne].
    + exists tb. split_and!; [|done..].
      by apply (equalLoop_equal want 0 []).
    + destruct (equalLoop_differ got 0 [] want tb name msg)
        as (tb' & Hloop & Hfailed); [done | done | done | lia | done |].
      exists tb'. by split_and!.
  - rewrite failT_named by done. cbn [Fatalf testableT_TB andThen Failed].
    cbn [isFailed]. eexists. split_and!; [done | | done].
    intros ->. done.
Qed.

Lemma equalLoop_first (i : nat) : ∀ got want pre idx tb name msg x y,
  isFailed tb = false → name ≠ "" → idx = Z.of_nat (length pre) →
  take i got = take i want →
  got !! i = Some x → want !! i = Some y → equal x y = false →
  equalLoop idx got (pre ++ want) name msg tb
  = Returned
      {| isFailed := true;
         failureMsg :=
           Sprintf (Sprintf "%%s - Idx #%d = %%v, want %%v"
                      [ofInt (idx + Z.of_nat i)])
             [ofString name; toAny x; toAny y] |}.
Proof.
  induction i as [|i IH];
    intros [|el got] [|w want] pre idx tb name msg x y Hok Hname -> Htake
      Hx Hy Hne; simplify_eq/=.
  - rewrite Hok. unfold index.
    destruct (Z.leb_spec 0 (Z.of_nat (length pre))); [|lia].
    rewrite Nat2Z.id, list_lookup_middle by done.
    rewrite Hne. cbn [negb]. rewrite failT_named by done.
    cbn [Fatalf testableT_TB andThen]. rewrite Z.add_0_r.
    by destruct got.
  - rewrite Hok. unfold index.
    destruct (Z.leb_spec 0 (Z.of_nat (length pre))); [|lia].
    rewrite Nat2Z.id, list_lookup_middle by done.
    rewrite (proj2 (equal_spec w w) eq_refl). cbn [negb andThen].
    rewrite (cons_middle w pre want), app_assoc.
    rewrite (IH got want (pre ++ [w]) _ tb name msg x y); try done.
    + by replace (Z.of_nat (length pre) + 1 + Z.of_nat i)
        with (Z.of_nat (length pre) + Z.of_nat (S i)) by lia.
    + rewrite length_app. simpl. lia.
Qed.

(** X21: given a name, slices of one length and a [testableT] that has
    not failed, [EqualS] reports the first index at which the slices
    differ, with the two elements there; a later difference does not
    replace the message. *)
Theorem EqualS_first_difference tb got want name msg (i : nat) (x y : E) :
  isFailed tb = false → name ≠ "" → length got = length want →
  take i got = take i want →
  got !! i = Some x → want !! i = Some y → equal x y = false →
  EqualS tb got want name msg
  = Returned
      {| isFailed := true;
         failureMsg :=
           Sprintf (Sprintf "%%s - Idx #%d = %%v, want %%v"
                      [ofInt (Z.of_nat i)])
             [ofString name; toAny x; toAny y] |}.
Proof.
  intros Hok Hname Hlen Htake Hx Hy Hne. unfold EqualS.
  rewrite Hlen, Z.eqb_refl. cbn [negb andThen Failed testableT_TB].
  rewrite Hok.
  by apply (equalLoop_first i got want [] 0 tb name msg x y).
Qed.
End Double.

Lemma Equal_without_message_panics_witness :
  equal 1 2 = false
  ∧ (@nil any = [] ∨ ∃ first rest, [] = first :: rest ∧ asString first = None)
  ∧ Equal newT 1 2 "" [] = Panicked.
Proof.
  split; [reflexivity|]. split; [by left|].
  apply (Equal_without_message_panics newT 1 2 []); [reflexivity | by left].
Defined.

Lemma EqualS_after_failure_witness :
  Failed {| isFailed := true; failureMsg := "earlier" |} = true
  ∧ length [1; 2] = length [2; 1]
  ∧ EqualS {| isFailed := true; failureMsg := "earlier" |} [1; 2] [2; 1]
      "Split()" []
    = Returned {| isFailed := true; failureMsg := "earlier" |}.
Proof.
  split; [reflexivity|]. split; [reflexivity|].
  apply (EqualS_after_failure
           {| isFailed := true; failureMsg := "earlier" |} [1; 2] [2; 1]
           "Split()" []); reflexivity.
Defined.

Lemma testableT_Fatalf_fails `{Values} format args (tb tb' : testableT) :
  Fatalf format args tb = Returned tb' → Failed tb' = true.
Proof. intros [= <-]. done. Qed.

Lemma EqualS_in_bounds_witness :
  "Split()" ≠ "" ∧ EqualS newT [1; 2; 3] [1] "Split()" [] ≠ Panicked.
Proof.
  split; [discriminate|].
  apply (EqualS_in_bounds (T := testableT) (E := Z)
           testableT_Fatalf_fails (λ _ _ _, ltac:(discriminate))
           newT [1; 2; 3] [1] "Split()" []).
  discriminate.
Defined.

Lemma int_equal_spec (x y : Z) : equal x y = true ↔ x = y.
Proof. apply Z.eqb_eq. Qed.

Lemma EqualS_verdict_witness :
  isFailed newT = false ∧ "Split()" ≠ ""
  ∧ ∃ tb',
      EqualS newT [1; 2; 3] [1; 2; 4] "Split()" [] = Returned tb'
      ∧ ([1; 2; 3] = [1; 2; 4] → tb' = newT)
      ∧ ([1; 2; 3] ≠ [1; 2; 4] → isFailed tb' = true).
Proof.
  split; [reflexivity|]. split; [discriminate|].
  apply (EqualS_verdict (E := Z) int_equal_spec newT [1; 2; 3] [1; 2; 4]
           "Split()" []); [reflexivity | discriminate].
Defined.

Lemma EqualS_first_difference_witness :
  isFailed newT = false ∧ "Split()" ≠ ""
  ∧ length [1; 2; 3; 4] = length [1; 2; 0; 0]
  ∧ take 2 [1; 2; 3; 4] = take 2 [1; 2; 0; 0]
  ∧ [1; 2; 3; 4] !! 2%nat = Some 3 ∧ [1; 2; 0; 0] !! 2%nat = Some 0
  ∧ equal 3 0 = false
  ∧ EqualS newT [1; 2; 3; 4] [1; 2; 0; 0] "Split()" []
    = Returned {| isFailed := true;
                  failureMsg := "Split() - Idx #2 = 3, want 0" |}.
Proof.
  split_and!; [reflexivity | discriminate | reflexivity..|].
  apply (EqualS_first_difference (E := Z) int_equal_spec newT
           [1; 2; 3; 4] [1; 2; 0; 0] "Split()" [] 2 3 0);
    [reflexivity | discriminate | reflexivity..].
Defined.
End AssertExtras.
